(** * llm-complete: the streaming output controller of [llm-complete.js]

    A shallow embedding of the lookahead buffer, the sentence-boundary
    detector, the terminal input guard, the output sink, the progress
    indicator and the shutdown sequence, followed by the properties that
    the specification states about them.

    Conventions.
    - A JavaScript string is the list of its UTF-16 code units ([jsstring]);
      regular expressions without the [u] flag work on code units.
    - The module-level objects that the script mutates ([state], [rl], the
      open file, the timers) are gathered in one record, [World], that every
      function takes and returns.
    - Every observable side effect is appended to the chronological log
      [effects] of the world.
    - The model covers the runs in which no I/O call throws. *)

From Stdlib Require Import String Ascii ZArith List Bool Lia.
Import ListNotations.
Open Scope Z_scope.

(* ===================================================================== *)
(** ** JavaScript strings and arrays *)
(* ===================================================================== *)

Definition jsstring := list Z.

(** An ASCII literal of the source as a list of code units. *)
Definition lit (s : string) : jsstring :=
  map (fun a => Z.of_N (N_of_ascii a)) (list_ascii_of_string s).

Definition LF : Z := 10.          (* '\n' *)
Definition SPACE : Z := 32.       (* ' '  *)
Definition nl : jsstring := [LF].

(** [a === b] on strings. *)
Fixpoint str_eqb (a b : jsstring) : bool :=
  match a, b with
  | [], [] => true
  | x :: a', y :: b' => (x =? y) && str_eqb a' b'
  | _, _ => false
  end.

(** [s.startsWith(' ')] *)
Definition startsWith_space (s : jsstring) : bool :=
  match s with
  | c :: _ => c =? SPACE
  | [] => false
  end.

(** [s.endsWith(' ')] *)
Definition endsWith_space (s : jsstring) : bool :=
  match rev s with
  | c :: _ => c =? SPACE
  | [] => false
  end.

(** [s.slice(1)] *)
Definition slice1 (s : jsstring) : jsstring := tl s.

(** [Array.prototype.slice(start, stop)]: a negative bound counts from the
    end, both bounds are clamped to the array, and the result is empty when
    the bounds cross. *)
Definition js_slice {A : Type} (l : list A) (start stop : Z) : list A :=
  let len := Z.of_nat (length l) in
  let k := if start <? 0 then Z.max (len + start) 0 else Z.min start len in
  let final := if stop <? 0 then Z.max (len + stop) 0 else Z.min stop len in
  firstn (Z.to_nat (final - k)) (skipn (Z.to_nat k) l).

(** [a[i]]: [None] stands for [undefined]. *)
Definition js_index {A : Type} (l : list A) (i : Z) : option A :=
  if i <? 0 then None else nth_error l (Z.to_nat i).

(* ===================================================================== *)
(** ** Regular expressions of the source *)
(* ===================================================================== *)

(** The character class of [const boundaries = /[...]/], code unit by code
    unit as the source file spells it: [.] [?] [!], then the three
    characters U+00E2, U+20AC, U+00A6 that stand between [!] and [:] in the
    file, then [:] [;] and the line feed. *)
Definition boundary_class : list Z :=
  [46; 63; 33; 226; 8364; 166; 58; 59; LF].

Definition in_class (cls : list Z) (c : Z) : bool :=
  existsb (Z.eqb c) cls.

(** [token.match(boundaries)] as a truth value: an unanchored search for
    one code unit of the class. *)
Definition matches_boundaries (token : jsstring) : bool :=
  existsb (in_class boundary_class) token.

(** [token.match(/\n/)] as a truth value. *)
Definition matches_newline (token : jsstring) : bool :=
  existsb (Z.eqb LF) token.

(** [input.replace(/[^\n](\n)$/, '')]: the pattern is not global, so the
    leftmost match is replaced. A match at a position needs a code unit
    other than LF, then LF, then the end of the string; the whole match is
    replaced by the empty string. *)
Fixpoint replace_trailing_newline (s : jsstring) : jsstring :=
  match s with
  | [] => []
  | c :: rest =>
      if negb (c =? LF) && str_eqb rest nl then []
      else c :: replace_trailing_newline rest
  end.

(* ===================================================================== *)
(** ** The world: run state, terminal, file, timers, effect log *)
(* ===================================================================== *)

(** [const state = { busy, killed, flashOn, flashLoop }] *)
Inductive timer := FlashTimer.

Record state := mkState {
  busy : bool;
  killed : bool;
  flashOn : bool;
  flashLoop : option timer
}.

(** [rl._ttyWrite] is either the handler saved in [tty] or [() => {}]. *)
Inductive tty_handler := TtyOriginal | TtyBlocked.

Inductive sink := TerminalLine | RawStream | AppendFile.

Inductive effect :=
| StderrWrite (s : jsstring)              (* process.stderr.write(s) *)
| SinkWrite (k : sink) (token : jsstring) (* the branch of writeToken taken *)
| FileTruncate (len : Z)                  (* inputFile.truncate(len) *)
| OpenWriteStream                         (* inputFile.createWriteStream() *)
| CreateCompletionStream (prompt : jsstring)
| SetInterval (t : timer) (ms : Z)
| ClearInterval (t : option timer)
| SetTimeoutDispose (ms : Z)              (* setTimeout(dispose, ms) *)
| ModelDispose                            (* model.dispose() *)
| ProcessExit                             (* process.exit() *)
| ConsoleError.                           (* console.error(...) *)

Record World := mkWorld {
  st : state;
  rl_ttyWrite : tty_handler;
  rl_line : jsstring;
  rl_cursor : Z;
  cursor_hidden : bool;     (* the terminal's cursor mode *)
  flash_live : bool;        (* the interval timer of the indicator is armed *)
  inputFile : list Z;       (* bytes of the open file *)
  effects : list effect     (* oldest first *)
}.

Definition with_st (f : state -> state) (w : World) : World :=
  mkWorld (f (st w)) (rl_ttyWrite w) (rl_line w) (rl_cursor w)
          (cursor_hidden w) (flash_live w) (inputFile w) (effects w).

Definition set_busy (b : bool) (s : state) : state :=
  mkState b (killed s) (flashOn s) (flashLoop s).
Definition set_killed (b : bool) (s : state) : state :=
  mkState (busy s) b (flashOn s) (flashLoop s).
Definition set_flashOn (b : bool) (s : state) : state :=
  mkState (busy s) (killed s) b (flashLoop s).
Definition set_flashLoop (t : option timer) (s : state) : state :=
  mkState (busy s) (killed s) (flashOn s) t.

Definition log (e : effect) (w : World) : World :=
  mkWorld (st w) (rl_ttyWrite w) (rl_line w) (rl_cursor w)
          (cursor_hidden w) (flash_live w) (inputFile w) (effects w ++ [e]).

Definition set_ttyWrite (h : tty_handler) (w : World) : World :=
  mkWorld (st w) h (rl_line w) (rl_cursor w)
          (cursor_hidden w) (flash_live w) (inputFile w) (effects w).

Definition set_line (l : jsstring) (w : World) : World :=
  mkWorld (st w) (rl_ttyWrite w) l (Z.of_nat (length l))
          (cursor_hidden w) (flash_live w) (inputFile w) (effects w).

Definition set_cursor_hidden (b : bool) (w : World) : World :=
  mkWorld (st w) (rl_ttyWrite w) (rl_line w) (rl_cursor w)
          b (flash_live w) (inputFile w) (effects w).

Definition set_flash_live (b : bool) (w : World) : World :=
  mkWorld (st w) (rl_ttyWrite w) (rl_line w) (rl_cursor w)
          (cursor_hidden w) b (inputFile w) (effects w).

Definition set_file (f : list Z) (w : World) : World :=
  mkWorld (st w) (rl_ttyWrite w) (rl_line w) (rl_cursor w)
          (cursor_hidden w) (flash_live w) f (effects w).

(** The two escape sequences of the script. *)
Definition HIDE_CURSOR : jsstring := 27 :: lit "[?25l".
Definition SHOW_CURSOR : jsstring := 27 :: lit "[?25h".

(** [process.stderr.write(s)]: the bytes go to the terminal, which switches
    its cursor mode on the two sequences above. *)
Definition stderr_write (s : jsstring) (w : World) : World :=
  let w := log (StderrWrite s) w in
  if str_eqb s HIDE_CURSOR then set_cursor_hidden true w
  else if str_eqb s SHOW_CURSOR then set_cursor_hidden false w
  else w.

(* ===================================================================== *)
(** ** Terminal input guard *)
(* ===================================================================== *)

Definition blockInput (w : World) : World :=
  stderr_write HIDE_CURSOR (set_ttyWrite TtyBlocked w).

Definition restoreInput (w : World) : World :=
  stderr_write SHOW_CURSOR (set_ttyWrite TtyOriginal w).

Definition CTRL_C : jsstring := [3].

(** [rl.input.on('data', key => ...)] *)
Definition on_data (key : jsstring) (w : World) : World :=
  if busy (st w) then
    if str_eqb key CTRL_C then with_st (set_killed true) w else w
  else w.

(** [settings.onResponseToken]: the answer given to the token source. *)
Definition onResponseToken (w : World) : bool := negb (killed (st w)).

(* ===================================================================== *)
(** ** Progress indicator *)
(* ===================================================================== *)

Definition BS3 : jsstring := [8; 8; 8].

(** The callback passed to [setInterval]. *)
Definition flash_callback (w : World) : World :=
  if flashOn (st w)
  then stderr_write (lit "   " ++ BS3) (with_st (set_flashOn false) w)
  else stderr_write (lit "..." ++ BS3) (with_st (set_flashOn true) w).

Definition startIndicating (w : World) : World :=
  log (SetInterval FlashTimer 400)
      (set_flash_live true (with_st (set_flashLoop (Some FlashTimer)) w)).

(** [clearInterval(state.flashLoop)] disarms the timer when [flashLoop]
    holds one and does nothing on [null]. *)
Definition stopIndicating (w : World) : World :=
  let w := log (ClearInterval (flashLoop (st w))) w in
  let w := match flashLoop (st w) with
           | Some FlashTimer => set_flash_live false w
           | None => w
           end in
  with_st (set_flashOn false) w.

(* ===================================================================== *)
(** ** Configuration and output sink *)
(* ===================================================================== *)

(** [append]: the [-a] flag; [isTTY]: [process.stdout.isTTY];
    [bufferAhead]: the numeric value of [process.env.BUFFER ?? 30]. *)
Record config := mkConfig {
  append : bool;
  isTTY : bool;
  bufferAhead : Z
}.

Definition writeToken (cfg : config) (token : jsstring) (w : World) : World :=
  if append cfg then log (SinkWrite AppendFile token) w
  else if negb (isTTY cfg) then log (SinkWrite RawStream token) w
  else log (SinkWrite TerminalLine token) (set_line (rl_line w ++ token) w).

(** What [writeToken] receives for [buffer[i]]; an index outside the array
    gives [undefined], which the terminal branch would print by name. The
    index of the live loop is always inside the array
    ([on_token_index_in_range] and [receive_index_in_range] below). *)
Definition token_or_undefined (o : option jsstring) : jsstring :=
  match o with
  | Some t => t
  | None => lit "undefined"
  end.

(* ===================================================================== *)
(** ** Shutdown *)
(* ===================================================================== *)

Definition dispose (w : World) : World :=
  log ProcessExit (restoreInput (log ModelDispose w)).

Definition shutdown (w : World) : World :=
  if busy (st w) then log (SetTimeoutDispose 800) w else dispose w.

(** [process.on('uncaughtException', ...)] *)
Definition on_uncaughtException (w : World) : World :=
  let w := log ConsoleError w in
  if busy (st w) then shutdown w else log ProcessExit w.

Definition handleProcessingError (w : World) : World :=
  shutdown (log ConsoleError w).

Definition proccessingStopped (cfg : config) (w : World) : World :=
  shutdown (restoreInput (stopIndicating (writeToken cfg nl w))).

(* ===================================================================== *)
(** ** Append mode: newline normalisation of the file *)
(* ===================================================================== *)

(** [inputFile.read(tempFile, 0, 2, pos)] into a zero-filled buffer of two
    bytes: a byte past the end of the file stays zero. *)
Definition read2 (file : list Z) (pos : Z) : Z * Z :=
  (nth (Z.to_nat pos) file 0, nth (Z.to_nat (pos + 1)) file 0).

(** [inputFile.truncate(len)]: cuts, or pads with zero bytes. *)
Definition truncate (file : list Z) (len : Z) : list Z :=
  let n := Z.to_nat len in
  firstn n file ++ repeat 0 (n - length file)%nat.

Definition createWriteStream (w : World) : World :=
  let eof := Z.of_nat (length (inputFile w)) - 2 in
  let w :=
    if eof >? 1 then
      let lastBytes := read2 (inputFile w) eof in
      let isSingleNewline :=
        negb (fst lastBytes =? 10) && (snd lastBytes =? 10) in
      if isSingleNewline
      then log (FileTruncate (eof + 1))
               (set_file (truncate (inputFile w) (eof + 1)) w)
      else w
    else w in
  log OpenWriteStream w.

(* ===================================================================== *)
(** ** The environment of a run *)
(* ===================================================================== *)

(** What the event loop may run at a suspension point of [processStream]:
    a chunk of terminal input, or the indicator's interval callback. *)
Inductive async_event :=
| KeyData (key : jsstring)
| Tick.

(** What the [for await] loop meets, in order: the next token of
    [stream.tokens], or something that runs while the loop is suspended. *)
Inductive stream_event :=
| Token (t : jsstring)
| Async (a : async_event).

(** [stream]: the events up to the end of the token stream;
    [waits]: what runs during each 200ms delay of the paced tail loop. *)
Record schedule := mkSchedule {
  stream : list stream_event;
  waits : list (list async_event)
}.

Definition handle_async (a : async_event) (w : World) : World :=
  match a with
  | KeyData key => on_data key w
  | Tick => if flash_live w then flash_callback w else w
  end.

Definition handle_asyncs (l : list async_event) (w : World) : World :=
  fold_left (fun w a => handle_async a w) l w.

(* ===================================================================== *)
(** ** processStream *)
(* ===================================================================== *)

(** The local variables of the buffering loop. *)
Record loop_state := mkLoop {
  buffer : list jsstring;
  currentToken : Z;
  currentIndex : Z;
  currentBoundary : Z
}.

Definition loop_init : loop_state := mkLoop [] (-1) 0 (-1).

(** The body of the [for await] loop after the cancellation check. *)
Definition on_token (cfg : config) (input : jsstring) (token : jsstring)
    (ls : loop_state) (w : World) : loop_state * World :=
  let token :=
    if (currentToken ls <? 0) && startsWith_space token && endsWith_space input
    then slice1 token else token in
  let buffer' := buffer ls ++ [token] in
  let currentToken' := currentToken ls + 1 in
  let currentBoundary' :=
    if matches_boundaries token then Z.of_nat (length buffer')
    else currentBoundary ls in
  let w :=
    if (currentToken' =? bufferAhead cfg) && negb (append cfg) && isTTY cfg
    then stopIndicating w else w in
  if currentToken' >=? bufferAhead cfg
  then (mkLoop buffer' currentToken' (currentIndex ls + 1) currentBoundary',
        writeToken cfg (token_or_undefined (js_index buffer' (currentIndex ls))) w)
  else (mkLoop buffer' currentToken' (currentIndex ls) currentBoundary', w).

(** How a loop of [processStream] ends: it runs to its end, or it leaves
    the function through [if (state.killed) return]. *)
Inductive outcome :=
| Completed (ls : loop_state) (w : World)
| Returned (w : World).

Definition world_of (o : outcome) : World :=
  match o with
  | Completed _ w => w
  | Returned w => w
  end.

(** The [for await (let token of stream.tokens)] loop. *)
Fixpoint receive (cfg : config) (input : jsstring) (evs : list stream_event)
    (ls : loop_state) (w : World) : outcome :=
  match evs with
  | [] => Completed ls w
  | Async a :: evs' => receive cfg input evs' ls (handle_async a w)
  | Token t :: evs' =>
      if killed (st w) then Returned w
      else let (ls', w') := on_token cfg input t ls w in
           receive cfg input evs' ls' w'
  end.

(** [while (buffer.slice(-1)[0]?.match(/\n/)) buffer.pop()], on the
    reversed array. *)
Fixpoint drop_newline_tokens (r : list jsstring) : list jsstring :=
  match r with
  | [] => []
  | t :: r' => if matches_newline t then drop_newline_tokens r' else r
  end.

Definition pop_newline_tokens (b : list jsstring) : list jsstring :=
  rev (drop_newline_tokens (rev b)).

(** A JavaScript number is truthy unless it is zero. *)
Definition truthy (n : Z) : bool := negb (n =? 0).

(** "Drop any trailing sentence fragment from buffer": the value of
    [buffer] after the [if (currentBoundary) { ... }] block. *)
Definition drain (ls : loop_state) : list jsstring :=
  if truthy (currentBoundary ls) then
    let boundary :=
      if truthy (currentBoundary ls) then currentBoundary ls
      else Z.of_nat (length (buffer ls)) - 1 in
    pop_newline_tokens (js_slice (buffer ls) (currentIndex ls) boundary)
  else buffer ls.

(** The paced loop [for (let i = 0; i < buffer.length; i++)]: the
    cancellation check, then the 200ms delay, at the end of which the
    timer callback writes [buffer[i]]. *)
Fixpoint paced (cfg : config) (buf : list jsstring)
    (ws : list (list async_event)) (w : World) : World :=
  match buf with
  | [] => w
  | t :: rest =>
      if killed (st w) then w
      else paced cfg rest (tl ws)
                 (writeToken cfg t (handle_asyncs (hd [] ws) w))
  end.

(** The [try] block from the creation of the stream on; the [return]
    statements and the normal end both fall through to [finally]. *)
Definition stream_and_drain (cfg : config) (input : jsstring)
    (sched : schedule) (w : World) : World :=
  match receive cfg input (stream sched) loop_init w with
  | Returned w' => w'
  | Completed ls w' => paced cfg (drain ls) (waits sched) w'
  end.

(** The statements of [processStream] up to [createCompletionStream]. *)
Definition begin_stream (cfg : config) (input : jsstring) (w : World) : World :=
  let w := with_st (set_busy true) w in
  let input := replace_trailing_newline input in
  let w := if append cfg then createWriteStream w
           else writeToken cfg input w in
  log (CreateCompletionStream input) w.

Definition processStream (cfg : config) (input : jsstring)
    (sched : schedule) (w : World) : World :=
  let w := begin_stream cfg input w in
  let w := stream_and_drain cfg (replace_trailing_newline input) sched w in
  proccessingStopped cfg w.

(** The state of the process when the script starts. *)
Definition initial_world (file : list Z) : World :=
  mkWorld (mkState false false false None) TtyOriginal [] 0 false false file [].

(** "Process input": [blockInput(); startIndicating(); processStream(input)]. *)
Definition main (cfg : config) (file : list Z) (input : jsstring)
    (sched : schedule) : World :=
  processStream cfg input sched (startIndicating (blockInput (initial_world file))).

(** Everything that can run once the script is set up: the handlers, the
    functions that other code paths call, and the run itself. *)
Inductive entry :=
| EData (key : jsstring)                 (* rl.input 'data' *)
| ETick                                  (* the interval callback, if armed *)
| EUncaught                              (* 'uncaughtException' *)
| EShutdown                              (* shutdown() from a catch block *)
| EProcessingError                       (* handleProcessingError(err) *)
| EStopped (cfg : config)                (* proccessingStopped() *)
| EWrite (cfg : config) (t : jsstring)   (* writeToken(t) *)
| EStopIndicating
| EStartIndicating
| EBlockInput
| ERestoreInput
| ERun (cfg : config) (input : jsstring) (sched : schedule).

Definition run_entry (e : entry) (w : World) : World :=
  match e with
  | EData key => on_data key w
  | ETick => handle_async Tick w
  | EUncaught => on_uncaughtException w
  | EShutdown => shutdown w
  | EProcessingError => handleProcessingError w
  | EStopped cfg => proccessingStopped cfg w
  | EWrite cfg t => writeToken cfg t w
  | EStopIndicating => stopIndicating w
  | EStartIndicating => startIndicating w
  | EBlockInput => blockInput w
  | ERestoreInput => restoreInput w
  | ERun cfg input sched => processStream cfg input sched w
  end.

Definition run_entries (es : list entry) (w : World) : World :=
  fold_left (fun w e => run_entry e w) es w.

(* ===================================================================== *)
(** ** Observations on the effect log *)
(* ===================================================================== *)

(** The strings handed to the sink, in order. *)
Fixpoint sink_writes (es : list effect) : list jsstring :=
  match es with
  | [] => []
  | SinkWrite _ t :: es' => t :: sink_writes es'
  | _ :: es' => sink_writes es'
  end.

(** The text that reached the sink. *)
Definition sink_text (es : list effect) : jsstring := concat (sink_writes es).

(** The number of [model.dispose()] calls made at once by [shutdown], that
    is, not through the 800ms timer. *)
Fixpoint immediate_disposals (es : list effect) : nat :=
  match es with
  | [] => 0%nat
  | ModelDispose :: es' => S (immediate_disposals es')
  | _ :: es' => immediate_disposals es'
  end.

(** The number of [setTimeout(dispose, 800)] calls. *)
Fixpoint deferred_disposals (es : list effect) : nat :=
  match es with
  | [] => 0%nat
  | SetTimeoutDispose ms :: es' =>
      if ms =? 800 then S (deferred_disposals es') else deferred_disposals es'
  | _ :: es' => deferred_disposals es'
  end.

(** Whether [clearInterval] has run before the first write to the sink
    in the effects [es] (vacuously true when nothing is written). *)
Fixpoint stopped_before_first_write (es : list effect) : bool :=
  match es with
  | [] => true
  | ClearInterval _ :: _ => true
  | SinkWrite _ _ :: _ => false
  | _ :: es' => stopped_before_first_write es'
  end.

(** The effects that follow the creation of the completion stream: the
    part of the log in which generated tokens are written. *)
Fixpoint after_stream_creation (es : list effect) : list effect :=
  match es with
  | [] => []
  | CreateCompletionStream _ :: es' => es'
  | _ :: es' => after_stream_creation es'
  end.

(** The prompts handed to [createCompletionStream]. *)
Fixpoint prompts (es : list effect) : list jsstring :=
  match es with
  | [] => []
  | CreateCompletionStream p :: es' => p :: prompts es'
  | _ :: es' => prompts es'
  end.

(** The variant of the sink that [writeToken] selects. *)
Definition sink_of (cfg : config) : sink :=
  if append cfg then AppendFile
  else if negb (isTTY cfg) then RawStream
  else TerminalLine.

(** [w'] is reached from [w] by code that leaves [busy] alone, does not
    clear [killed], and only adds effects other than an immediate
    [model.dispose()] and the creation of a stream. *)
Definition quiet (w w' : World) : Prop :=
  busy (st w') = busy (st w) /\
  (killed (st w) = true -> killed (st w') = true) /\
  exists es, effects w' = effects w ++ es /\
             immediate_disposals es = 0%nat /\
             deferred_disposals es = 0%nat /\ prompts es = [].

(** The same, for code that leaves [killed] alone and writes nothing to
    the sink. *)
Definition silent (w w' : World) : Prop :=
  busy (st w') = busy (st w) /\
  killed (st w') = killed (st w) /\
  exists es, effects w' = effects w ++ es /\ sink_writes es = [] /\
             immediate_disposals es = 0%nat /\
             deferred_disposals es = 0%nat /\ prompts es = [].

(** The invariant of the buffering loop for a depth [d >= 0], with [base]
    the writes that preceded the loop: the flag is clear, [currentToken]
    is the index of the last buffered token, [currentIndex] stays [d]
    behind the length of the buffer, and the loop has written the first
    [length - d] tokens of the buffer. *)
Definition live_inv (d : Z) (base : list jsstring)
    (ls : loop_state) (w : World) : Prop :=
  let n := Z.of_nat (length (buffer ls)) in
  killed (st w) = false /\
  currentToken ls = n - 1 /\
  currentIndex ls = Z.max 0 (n - d) /\
  sink_writes (effects w) = base ++ firstn (Z.to_nat (n - d)) (buffer ls).

(** The number of tokens among stream events. *)
Fixpoint count_tokens (evs : list stream_event) : nat :=
  match evs with
  | [] => 0%nat
  | Token _ :: evs' => S (count_tokens evs')
  | Async _ :: evs' => count_tokens evs'
  end.

(** The tokens of a stream as the loop buffers them: the first one loses a
    leading space when the (trimmed) input ends with a space. *)
Fixpoint stream_tokens (evs : list stream_event) : list jsstring :=
  match evs with
  | [] => []
  | Token t :: evs' => t :: stream_tokens evs'
  | Async _ :: evs' => stream_tokens evs'
  end.

Definition seam_fix (input : jsstring) (ts : list jsstring) : list jsstring :=
  match ts with
  | [] => []
  | t :: ts' =>
      (if startsWith_space t && endsWith_space input then slice1 t else t) :: ts'
  end.

(** No cancellation key among the events. *)
Fixpoint no_cancel (evs : list stream_event) : bool :=
  match evs with
  | [] => true
  | Async (KeyData key) :: evs' => negb (str_eqb key CTRL_C) && no_cancel evs'
  | _ :: evs' => no_cancel evs'
  end.

(** No cancellation key during the delays of the paced loop. *)
Definition no_cancel_async (l : list async_event) : bool :=
  no_cancel (map Async l).

Definition no_cancel_waits (ws : list (list async_event)) : bool :=
  forallb no_cancel_async ws.

(** No token of the stream matches the boundary class. *)
Definition boundary_free (evs : list stream_event) : bool :=
  forallb (fun t => negb (matches_boundaries t)) (stream_tokens evs).

(* ===================================================================== *)
(** ** Scenarios *)
(* ===================================================================== *)

(** The end-to-end scenario of the specification: the input
    ["This is a story\n"], a lookahead depth of 3 and the three tokens
    ["about"], [" something"], ["."]. *)
Definition story_input : jsstring := lit "This is a story" ++ nl.

Definition story_tokens : list stream_event :=
  [Token (lit "about"); Token (lit " something"); Token (lit ".")].

Definition story_schedule : schedule := mkSchedule story_tokens [].

(** The same stream, with the indicator's timer firing during the first
    delay of the paced tail loop. *)
Definition story_schedule_tick : schedule := mkSchedule story_tokens [[Tick]].

Definition story_cfg (append_mode tty : bool) : config :=
  mkConfig append_mode tty 3.

(** The boundary-free scenario of the specification: depth 2 and five
    tokens without any boundary character; no prompt. *)
Definition fragment_tokens : list stream_event :=
  [Token (lit " and"); Token (lit " then"); Token (lit " it");
   Token (lit " kept"); Token (lit " going")].

Definition fragment_schedule : schedule := mkSchedule fragment_tokens [].

Definition fragment_cfg (append_mode tty : bool) : config :=
  mkConfig append_mode tty 2.

(** The horizontal ellipsis U+2026 and the euro sign U+20AC as tokens. *)
Definition ELLIPSIS : jsstring := [8230].
Definition EURO : jsstring := [8364].

(** A three-byte file: ["ab\n"]. *)
Definition short_file : list Z := [97; 98; 10].

(* ===================================================================== *)
(** ** Command line *)
(* ===================================================================== *)

(** "Parse command line args" and "Proceed with or without input": the
    module-level statements that turn [process.argv.slice(2)] into the
    mode of the run. Arguments are plain strings. *)
Module CommandLine.

(** [const flags = { prompt, file, append }] *)
Definition flags_prompt : list string := ["-p"; "--prompt"]%string.
Definition flags_file : list string := ["-f"; "--file"]%string.
Definition flags_append : list string := ["-a"; "--append"]%string.

(** [flags.x.includes(arg)] *)
Definition includes (l : list string) (arg : string) : bool :=
  existsb (String.eqb arg) l.

(** [args.findIndex(f)]: the index of the first match, or [-1]. *)
Fixpoint findIndex {A : Type} (f : A -> bool) (l : list A) : Z :=
  match l with
  | [] => -1
  | a :: r =>
      if f a then 0
      else let i := findIndex f r in if i <? 0 then -1 else i + 1
  end.

(** [args.some(arg => flags.x.includes(arg))] *)
Definition useFile (args : list string) : bool :=
  existsb (includes flags_file) args.
Definition append (args : list string) : bool :=
  existsb (includes flags_append) args.
Definition prompt (args : list string) : bool :=
  existsb (includes flags_prompt) args.

Definition getInputIndex (args : list string) : Z :=
  if append args then findIndex (includes flags_append) args + 1
  else if useFile args then findIndex (includes flags_file) args + 1
  else if prompt args then findIndex (includes flags_prompt) args + 1
  else -1.

(** [!inputPath]: [undefined] and the empty string are falsy. *)
Definition falsy (o : option string) : bool :=
  match o with
  | None => true
  | Some s => String.eqb s EmptyString
  end.

(** What the script has decided when it reaches "Load input file":
    it has left with exit code 1, or it holds [inputPath] (and [append]),
    or it holds [directInput] ([None] for [undefined]). *)
Inductive startup :=
| ExitFailure
| FromFile (inputPath : string) (append_mode : bool)
| FromPrompt (directInput : option string).

Definition startup_of (args : list string) : startup :=
  let inputIndex := getInputIndex args in
  if useFile args || append args then
    match js_index args inputIndex with
    | Some inputPath =>
        if falsy (Some inputPath) then ExitFailure
        else FromFile inputPath (append args)
    | None => ExitFailure
    end
  else
    FromPrompt (if prompt args then js_index args inputIndex
                else Some EmptyString).

End CommandLine.

(* ===================================================================== *)
(** ** Further invariants and observations *)
(* ===================================================================== *)

(** The value that the loop leaves in [currentBoundary]: starting from
    [cb] with [pos] tokens buffered, each boundary token moves it to the
    length of the buffer after that token. *)
Fixpoint scan_boundary (ts : list jsstring) (pos cb : Z) : Z :=
  match ts with
  | [] => cb
  | t :: r =>
      scan_boundary r (pos + 1) (if matches_boundaries t then pos + 1 else cb)
  end.

(** The invariant of the buffering loop that holds for every depth and
    under cancellation, with [base] the writes that preceded the loop:
    [currentToken] is the index of the last buffered token, the loop has
    written the first [currentIndex] tokens of the buffer, and
    [currentBoundary] is [-1] or a position inside the buffer. *)
Definition order_inv (base : list jsstring)
    (ls : loop_state) (w : World) : Prop :=
  let n := Z.of_nat (length (buffer ls)) in
  currentToken ls = n - 1 /\
  0 <= currentIndex ls <= n /\
  (currentBoundary ls = -1 \/ 1 <= currentBoundary ls <= n) /\
  sink_writes (effects w) =
    base ++ firstn (Z.to_nat (currentIndex ls)) (buffer ls).

(** The tokens as the loop buffers them when it starts in state [ls]. *)
Definition buffered (input : jsstring) (ls : loop_state)
    (evs : list stream_event) : list jsstring :=
  if currentToken ls <? 0 then seam_fix input (stream_tokens evs)
  else stream_tokens evs.

(** [w'] is reached from [w] by code that keeps the record of the
    terminal line in step with the sink: the timer handle is kept, the
    cursor stays at the end of the line, and in terminal mode the line
    grows by exactly the text written. *)
Definition tty_sync (cfg : config) (w w' : World) : Prop :=
  flashLoop (st w') = flashLoop (st w) /\
  (rl_cursor w = Z.of_nat (length (rl_line w)) ->
   rl_cursor w' = Z.of_nat (length (rl_line w'))) /\
  exists es,
    effects w' = effects w ++ es /\
    rl_line w' =
      rl_line w ++
      (if negb (append cfg) && isTTY cfg then sink_text es else []).

(** The number of [clearInterval] calls. *)
Fixpoint clear_count (es : list effect) : nat :=
  match es with
  | [] => 0%nat
  | ClearInterval _ :: es' => S (clear_count es')
  | _ :: es' => clear_count es'
  end.

(* ===================================================================== *)
(** * Properties *)
(* ===================================================================== *)

(** ** Lists *)

Section ListFacts.

Context {A : Type}.

Lemma nth_app_exact (l r : list A) (d : A) (n : nat) :
  nth (length l + n) (l ++ r) d = nth n r d.
Proof.
  rewrite app_nth2 by lia. f_equal. lia.
Qed.

Lemma firstn_snoc_nth (l : list A) (k : nat) (x : A) :
  nth_error l k = Some x -> firstn (S k) l = firstn k l ++ [x].
Proof.
  revert k. induction l as [|a l IH]; intros [|k] H; simpl in *;
    try discriminate.
  - injection H as ->. reflexivity.
  - rewrite (IH _ H). reflexivity.
Qed.

Lemma firstn_app_le (l r : list A) (k : nat) :
  (k <= length l)%nat -> firstn k (l ++ r) = firstn k l.
Proof.
  intros H. rewrite firstn_app.
  replace (k - length l)%nat with 0%nat by lia.
  simpl. apply app_nil_r.
Qed.

Lemma nth_error_snoc_lt (l : list A) (x : A) (k : nat) :
  (k <= length l)%nat -> exists y, nth_error (l ++ [x]) k = Some y.
Proof.
  intros H. destruct (nth_error (l ++ [x]) k) eqn:E; [eauto|].
  apply nth_error_None in E. rewrite length_app in E. simpl in E. lia.
Qed.

Lemma firstn_firstn_skipn (l : list A) (a b : nat) :
  firstn a l ++ firstn b (skipn a l) = firstn (a + b) l.
Proof.
  revert l. induction a as [|a IH]; intros l; simpl; [reflexivity|].
  destruct l as [|x l]; simpl.
  - rewrite firstn_nil. reflexivity.
  - rewrite IH. reflexivity.
Qed.

Lemma forallb_firstn_skipn (f : A -> bool) (l : list A) (a b : nat) :
  forallb f l = true -> forallb f (firstn b (skipn a l)) = true.
Proof.
  intros F.
  rewrite <- (firstn_skipn a l), forallb_app in F.
  apply andb_true_iff in F. destruct F as (_ & F).
  rewrite <- (firstn_skipn b (skipn a l)), forallb_app in F.
  apply andb_true_iff in F. apply F.
Qed.

End ListFacts.

(** ** Strings and regular expressions *)

Lemma str_eqb_eq (a b : jsstring) : str_eqb a b = true <-> a = b.
Proof.
  revert b; induction a as [|x a IH]; intros [|y b]; simpl; split;
    try congruence; try reflexivity.
  - rewrite andb_true_iff, Z.eqb_eq, IH. intros [-> ->]; reflexivity.
  - intros H; injection H as -> ->. rewrite Z.eqb_refl, (proj2 (IH b)); auto.
Qed.

Lemma str_eqb_refl (a : jsstring) : str_eqb a a = true.
Proof. apply str_eqb_eq; reflexivity. Qed.

Lemma in_class_In (cls : list Z) (c : Z) : in_class cls c = true <-> In c cls.
Proof.
  unfold in_class. rewrite existsb_exists. split.
  - intros (x & Hx & E). apply Z.eqb_eq in E. subst; assumption.
  - intros H. exists c. split; [assumption | apply Z.eqb_refl].
Qed.

(** What the detector of the source computes: a token matches when one of
    its code units is one of the nine of the class. *)
Lemma matches_boundaries_iff (token : jsstring) :
  matches_boundaries token = true <->
  exists c, In c token /\ In c boundary_class.
Proof.
  unfold matches_boundaries. rewrite existsb_exists.
  split; intros (c & Hc & H); exists c; (split; [assumption|]);
    apply in_class_In; assumption.
Qed.

Lemma matches_newline_iff (token : jsstring) :
  matches_newline token = true <-> In LF token.
Proof.
  unfold matches_newline. rewrite existsb_exists. split.
  - intros (x & Hx & E). apply Z.eqb_eq in E. subst; assumption.
  - intros H. exists LF. split; [assumption | reflexivity].
Qed.

(** A token with a line feed is a boundary token. *)
Lemma matches_newline_boundary (token : jsstring) :
  matches_newline token = true -> matches_boundaries token = true.
Proof.
  rewrite matches_newline_iff, matches_boundaries_iff. intros H.
  exists LF. split; [assumption | simpl; tauto].
Qed.

Lemma str_eqb_long_nl (x y : Z) (s : jsstring) : str_eqb (s ++ [x; y]) nl = false.
Proof.
  destruct s as [|a [|b s]]; simpl; rewrite ?andb_false_r; reflexivity.
Qed.

(** The initial trim removes the two code units of the match. *)
Lemma replace_trailing_newline_match (pre : jsstring) (c : Z) :
  c <> LF -> replace_trailing_newline (pre ++ [c; LF]) = pre.
Proof.
  intros Hc. induction pre as [|a pre IH]; simpl.
  - apply Z.eqb_neq in Hc. rewrite Hc. reflexivity.
  - rewrite str_eqb_long_nl, andb_false_r, IH. reflexivity.
Qed.

(** Two trailing line feeds are left alone by the initial trim. *)
Lemma replace_trailing_newline_double (pre : jsstring) :
  replace_trailing_newline (pre ++ [LF; LF]) = pre ++ [LF; LF].
Proof.
  induction pre as [|a pre IH]; simpl.
  - reflexivity.
  - rewrite str_eqb_long_nl, andb_false_r, IH. reflexivity.
Qed.

(** ** Append-mode normalisation *)

(** X16. On a file of four bytes or more the guard [eof > 1] holds and a
    single trailing line feed is cut. *)
Lemma createWriteStream_single_newline (pre : list Z) (c : Z) (w : World) :
  (2 <= length pre)%nat -> c <> 10 -> inputFile w = pre ++ [c; 10] ->
  inputFile (createWriteStream w) = pre ++ [c].
Proof.
  intros Hlen Hc Hf. unfold createWriteStream. rewrite Hf.
  rewrite length_app. simpl length.
  replace (Z.of_nat (length pre + 2) - 2) with (Z.of_nat (length pre)) by lia.
  destruct (Z.of_nat (length pre) >? 1) eqn:G; [|lia].
  unfold read2. rewrite Nat2Z.id.
  replace (Z.to_nat (Z.of_nat (length pre) + 1)) with (length pre + 1)%nat by lia.
  replace (length pre) with (length pre + 0)%nat at 1 by lia.
  rewrite !nth_app_exact. simpl.
  apply Z.eqb_neq in Hc. rewrite Hc. simpl.
  unfold truncate.
  replace (Z.to_nat (Z.of_nat (length pre) + 1)) with (length pre + 1)%nat by lia.
  rewrite firstn_app, length_app. simpl length.
  replace (length pre + 1 - (length pre + 2))%nat with 0%nat by lia.
  replace (length pre + 1 - length pre)%nat with 1%nat by lia.
  rewrite firstn_all2 by lia. simpl. rewrite app_nil_r. reflexivity.
Qed.

(** X17. A file that ends in two line feeds is never cut, whatever its
    size. *)
Lemma createWriteStream_double_newline (pre : list Z) (w : World) :
  inputFile w = pre ++ [10; 10] ->
  inputFile (createWriteStream w) = pre ++ [10; 10].
Proof.
  intros Hf. unfold createWriteStream. rewrite Hf.
  rewrite length_app. simpl length.
  replace (Z.of_nat (length pre + 2) - 2) with (Z.of_nat (length pre)) by lia.
  destruct (Z.of_nat (length pre) >? 1) eqn:G; [|simpl; assumption].
  unfold read2. rewrite Nat2Z.id.
  replace (length pre) with (length pre + 0)%nat at 1 by lia.
  rewrite nth_app_exact. simpl. assumption.
Qed.

(** ** Observations distribute over the log *)

Lemma sink_writes_app (a b : list effect) :
  sink_writes (a ++ b) = sink_writes a ++ sink_writes b.
Proof.
  induction a as [|e a IH]; simpl; [reflexivity|].
  destruct e; simpl; rewrite IH; reflexivity.
Qed.

Lemma immediate_disposals_app (a b : list effect) :
  immediate_disposals (a ++ b) =
  (immediate_disposals a + immediate_disposals b)%nat.
Proof.
  induction a as [|e a IH]; simpl; [reflexivity|].
  destruct e; simpl; rewrite IH; reflexivity.
Qed.

Lemma deferred_disposals_app (a b : list effect) :
  deferred_disposals (a ++ b) =
  (deferred_disposals a + deferred_disposals b)%nat.
Proof.
  induction a as [|e a IH]; simpl; [reflexivity|].
  destruct e; simpl; try destruct (ms =? 800); rewrite IH; reflexivity.
Qed.

Lemma prompts_app (a b : list effect) :
  prompts (a ++ b) = prompts a ++ prompts b.
Proof.
  induction a as [|e a IH]; simpl; [reflexivity|].
  destruct e; simpl; rewrite IH; reflexivity.
Qed.

(** ** The primitive operations, one by one *)

(** Closes a [silent] or [quiet] goal once the state and the effects of
    the operation have been rewritten to their explicit form. *)
Ltac frame :=
  repeat split; auto; eexists; (split; [reflexivity|]); simpl; auto.

Lemma log_effects (e : effect) (w : World) :
  effects (log e w) = effects w ++ [e].
Proof. reflexivity. Qed.

Lemma log_st (e : effect) (w : World) : st (log e w) = st w.
Proof. reflexivity. Qed.

Lemma stderr_write_effects (s : jsstring) (w : World) :
  effects (stderr_write s w) = effects w ++ [StderrWrite s].
Proof.
  unfold stderr_write.
  destruct (str_eqb s HIDE_CURSOR), (str_eqb s SHOW_CURSOR); reflexivity.
Qed.

Lemma stderr_write_st (s : jsstring) (w : World) :
  st (stderr_write s w) = st w.
Proof.
  unfold stderr_write.
  destruct (str_eqb s HIDE_CURSOR), (str_eqb s SHOW_CURSOR); reflexivity.
Qed.

Lemma writeToken_effects (cfg : config) (t : jsstring) (w : World) :
  effects (writeToken cfg t w) = effects w ++ [SinkWrite (sink_of cfg) t].
Proof.
  unfold writeToken, sink_of.
  destruct (append cfg), (isTTY cfg); reflexivity.
Qed.

Lemma writeToken_st (cfg : config) (t : jsstring) (w : World) :
  st (writeToken cfg t w) = st w.
Proof.
  unfold writeToken. destruct (append cfg), (isTTY cfg); reflexivity.
Qed.

Lemma stopIndicating_effects (w : World) :
  effects (stopIndicating w) = effects w ++ [ClearInterval (flashLoop (st w))].
Proof.
  unfold stopIndicating. simpl. destruct (flashLoop (st w)) as [[]|]; reflexivity.
Qed.

Lemma stopIndicating_st (w : World) :
  st (stopIndicating w) = set_flashOn false (st w).
Proof.
  unfold stopIndicating. simpl. destruct (flashLoop (st w)) as [[]|]; reflexivity.
Qed.

Lemma restoreInput_effects (w : World) :
  effects (restoreInput w) = effects w ++ [StderrWrite SHOW_CURSOR].
Proof. unfold restoreInput. rewrite stderr_write_effects. reflexivity. Qed.

Lemma restoreInput_st (w : World) : st (restoreInput w) = st w.
Proof. unfold restoreInput. rewrite stderr_write_st. reflexivity. Qed.

Create Rewrite HintDb world_st.
Create Rewrite HintDb world_effects.
#[local] Hint Rewrite log_st stderr_write_st writeToken_st stopIndicating_st
  restoreInput_st : world_st.
#[local] Hint Rewrite log_effects stderr_write_effects writeToken_effects
  stopIndicating_effects restoreInput_effects : world_effects.

Lemma on_data_effects (key : jsstring) (w : World) :
  effects (on_data key w) = effects w.
Proof.
  unfold on_data. destruct (busy (st w)), (str_eqb key CTRL_C); reflexivity.
Qed.

Lemma on_data_busy (key : jsstring) (w : World) :
  busy (st (on_data key w)) = busy (st w).
Proof.
  unfold on_data. destruct (busy (st w)) eqn:B, (str_eqb key CTRL_C);
    simpl; auto.
Qed.

Lemma on_data_killed_mono (key : jsstring) (w : World) :
  killed (st w) = true -> killed (st (on_data key w)) = true.
Proof.
  unfold on_data. destruct (busy (st w)), (str_eqb key CTRL_C); simpl; auto.
Qed.

(** Ctrl-C during a run sets the cancellation flag. *)
Lemma on_data_ctrl_c (w : World) :
  busy (st w) = true -> killed (st (on_data CTRL_C w)) = true.
Proof. unfold on_data. intros ->. reflexivity. Qed.

(** Any other input leaves the flag as it is. *)
Lemma on_data_other (key : jsstring) (w : World) :
  str_eqb key CTRL_C = false -> on_data key w = w.
Proof. unfold on_data. intros ->. destruct (busy (st w)); reflexivity. Qed.

Lemma flash_callback_silent (w : World) : silent w (flash_callback w).
Proof.
  unfold silent, flash_callback.
  destruct (flashOn (st w)); rewrite stderr_write_st, stderr_write_effects;
    simpl; (repeat split; try reflexivity);
    eexists; (split; [reflexivity|]); simpl; auto.
Qed.

Lemma silent_refl (w : World) : silent w w.
Proof.
  unfold silent. repeat split; try reflexivity.
  exists []. rewrite app_nil_r. auto.
Qed.

Lemma silent_trans (a b c : World) : silent a b -> silent b c -> silent a c.
Proof.
  intros (B1 & K1 & e1 & E1 & S1 & I1 & D1 & P1)
         (B2 & K2 & e2 & E2 & S2 & I2 & D2 & P2).
  unfold silent. repeat split; try congruence.
  exists (e1 ++ e2). rewrite E2, E1, app_assoc.
  rewrite sink_writes_app, immediate_disposals_app, deferred_disposals_app,
    prompts_app, S1, S2, I1, I2, D1, D2, P1, P2.
  auto.
Qed.

Lemma quiet_refl (w : World) : quiet w w.
Proof.
  unfold quiet. repeat split; auto.
  exists []. rewrite app_nil_r. auto.
Qed.

Lemma quiet_trans (a b c : World) : quiet a b -> quiet b c -> quiet a c.
Proof.
  intros (B1 & K1 & e1 & E1 & I1 & D1 & P1) (B2 & K2 & e2 & E2 & I2 & D2 & P2).
  unfold quiet. repeat split; try congruence; auto.
  exists (e1 ++ e2). rewrite E2, E1, app_assoc.
  rewrite immediate_disposals_app, deferred_disposals_app, prompts_app,
    I1, I2, D1, D2, P1, P2. auto.
Qed.

Lemma silent_quiet (w w' : World) : silent w w' -> quiet w w'.
Proof.
  intros (B & K & es & E & S & I & D & P). unfold quiet.
  repeat split; try congruence. exists es. auto.
Qed.

Lemma silent_sink_writes (w w' : World) :
  silent w w' -> sink_writes (effects w') = sink_writes (effects w).
Proof.
  intros (_ & _ & es & E & S & _). rewrite E, sink_writes_app, S, app_nil_r.
  reflexivity.
Qed.

Lemma stopIndicating_silent (w : World) : silent w (stopIndicating w).
Proof.
  unfold silent. rewrite stopIndicating_st, stopIndicating_effects. simpl.
  frame.
Qed.

Lemma restoreInput_silent (w : World) : silent w (restoreInput w).
Proof.
  unfold silent. rewrite restoreInput_st, restoreInput_effects.
  frame.
Qed.

Lemma writeToken_quiet (cfg : config) (t : jsstring) (w : World) :
  quiet w (writeToken cfg t w).
Proof.
  unfold quiet. rewrite writeToken_st, writeToken_effects.
  frame.
Qed.

Lemma handle_async_quiet (a : async_event) (w : World) :
  quiet w (handle_async a w).
Proof.
  destruct a as [key|]; simpl.
  - unfold quiet. rewrite on_data_busy, on_data_effects.
    repeat split; [apply on_data_killed_mono|].
    exists []. rewrite app_nil_r. auto.
  - destruct (flash_live w).
    + apply silent_quiet, flash_callback_silent.
    + apply quiet_refl.
Qed.

Lemma handle_async_sink_writes (a : async_event) (w : World) :
  sink_writes (effects (handle_async a w)) = sink_writes (effects w).
Proof.
  destruct a as [key|]; simpl.
  - rewrite on_data_effects. reflexivity.
  - destruct (flash_live w); [|reflexivity].
    apply silent_sink_writes, flash_callback_silent.
Qed.

Lemma handle_asyncs_quiet (l : list async_event) (w : World) :
  quiet w (handle_asyncs l w).
Proof.
  revert w; induction l as [|a l IH]; intros w; simpl.
  - apply quiet_refl.
  - eapply quiet_trans; [apply handle_async_quiet | apply IH].
Qed.

Lemma handle_asyncs_sink_writes (l : list async_event) (w : World) :
  sink_writes (effects (handle_asyncs l w)) = sink_writes (effects w).
Proof.
  revert w; induction l as [|a l IH]; intros w; simpl; [reflexivity|].
  unfold handle_asyncs in IH. rewrite IH. apply handle_async_sink_writes.
Qed.

(** ** The buffering loop *)

Section BufferingLoop.

Variable cfg : config.
Variable input : jsstring.

Lemma on_token_quiet (t : jsstring) (ls : loop_state) (w : World) :
  quiet w (snd (on_token cfg input t ls w)).
Proof.
  unfold on_token.
  assert (Q1 : forall b : bool, quiet w (if b then stopIndicating w else w)).
  { intros [|]; [apply silent_quiet, stopIndicating_silent | apply quiet_refl]. }
  destruct (currentToken ls + 1 >=? bufferAhead cfg); simpl; [|apply Q1].
  eapply quiet_trans; [apply Q1 | apply writeToken_quiet].
Qed.

(** Below the lookahead depth a token is buffered and nothing else
    happens. *)
Lemma on_token_fill (t : jsstring) (ls : loop_state) (w : World) :
  currentToken ls + 1 < bufferAhead cfg ->
  snd (on_token cfg input t ls w) = w /\
  currentToken (fst (on_token cfg input t ls w)) = currentToken ls + 1.
Proof.
  intros H. unfold on_token.
  destruct (currentToken ls + 1 =? bufferAhead cfg) eqn:E; [lia|].
  destruct (currentToken ls + 1 >=? bufferAhead cfg) eqn:G; [lia|].
  simpl. auto.
Qed.

(** The index handed to [writeToken] lies inside the buffer: the loop
    never writes [undefined]. *)
Lemma on_token_index_in_range (t : jsstring) (ls : loop_state) (w : World) :
  0 <= currentIndex ls <= Z.of_nat (length (buffer ls)) ->
  let ls' := fst (on_token cfg input t ls w) in
  0 <= currentIndex ls' <= Z.of_nat (length (buffer ls')) /\
  exists y, js_index (buffer ls') (currentIndex ls) = Some y.
Proof.
  intros H. unfold on_token.
  set (t' := if (currentToken ls <? 0) && startsWith_space t
                && endsWith_space input then slice1 t else t).
  assert (L : Z.of_nat (length (buffer ls ++ [t'])) =
              Z.of_nat (length (buffer ls)) + 1).
  { rewrite length_app. simpl. lia. }
  assert (Y : exists y, js_index (buffer ls ++ [t']) (currentIndex ls) = Some y).
  { unfold js_index. destruct (currentIndex ls <? 0) eqn:E; [lia|].
    destruct (nth_error (buffer ls ++ [t']) (Z.to_nat (currentIndex ls)))
      eqn:N; [eauto|].
    apply nth_error_None in N. lia. }
  destruct (currentToken ls + 1 >=? bufferAhead cfg); simpl;
    (split; [lia | exact Y]).
Qed.

Lemma receive_app (e1 e2 : list stream_event) (ls : loop_state) (w : World) :
  receive cfg input (e1 ++ e2) ls w =
  match receive cfg input e1 ls w with
  | Completed ls' w' => receive cfg input e2 ls' w'
  | Returned w' => Returned w'
  end.
Proof.
  revert ls w. induction e1 as [|[t|a] e1 IH]; intros ls w; simpl.
  - reflexivity.
  - destruct (killed (st w)); [reflexivity|].
    destruct (on_token cfg input t ls w) as [ls' w']. apply IH.
  - apply IH.
Qed.

Lemma receive_quiet (evs : list stream_event) (ls : loop_state) (w : World) :
  quiet w (world_of (receive cfg input evs ls w)).
Proof.
  revert ls w. induction evs as [|[t|a] evs IH]; intros ls w; simpl.
  - apply quiet_refl.
  - destruct (killed (st w)); [apply quiet_refl|].
    pose proof (on_token_quiet t ls w) as Q.
    destruct (on_token cfg input t ls w) as [ls' w']. simpl in Q.
    eapply quiet_trans; [exact Q | apply IH].
  - eapply quiet_trans; [apply handle_async_quiet | apply IH].
Qed.

(** [currentIndex] stays inside the buffer all along the loop. *)
Lemma receive_index_in_range (evs : list stream_event)
    (ls ls' : loop_state) (w w' : World) :
  0 <= currentIndex ls <= Z.of_nat (length (buffer ls)) ->
  receive cfg input evs ls w = Completed ls' w' ->
  0 <= currentIndex ls' <= Z.of_nat (length (buffer ls')).
Proof.
  revert ls w. induction evs as [|[t|a] evs IH]; intros ls w H; simpl.
  - intros [= <- _]. exact H.
  - destruct (killed (st w)); [discriminate|].
    destruct (on_token_index_in_range t ls w H) as (H' & _).
    destruct (on_token cfg input t ls w) as [ls1 w1]. simpl in H'.
    apply IH. exact H'.
  - apply IH. exact H.
Qed.

(** The loop leaves through [return] only with the flag set. *)
Lemma receive_returned_killed (evs : list stream_event)
    (ls : loop_state) (w w' : World) :
  receive cfg input evs ls w = Returned w' -> killed (st w') = true.
Proof.
  revert ls w. induction evs as [|[t|a] evs IH]; intros ls w; simpl.
  - discriminate.
  - destruct (killed (st w)) eqn:K.
    + intros [= <-]. exact K.
    + destruct (on_token cfg input t ls w) as [ls1 w1]. apply IH.
  - apply IH.
Qed.

(** Fill phase: while the index of the last token stays below the depth,
    nothing reaches the sink. *)
Lemma receive_fill (evs : list stream_event) (ls : loop_state) (w : World) :
  currentToken ls + Z.of_nat (count_tokens evs) < bufferAhead cfg ->
  sink_writes (effects (world_of (receive cfg input evs ls w))) =
  sink_writes (effects w).
Proof.
  revert ls w. induction evs as [|[t|a] evs IH]; intros ls w H; simpl in *.
  - reflexivity.
  - destruct (killed (st w)); [reflexivity|].
    destruct (on_token_fill t ls w) as [Ew Ec]; [lia|].
    destruct (on_token cfg input t ls w) as [ls' w']. simpl in Ew, Ec. subst w'.
    apply IH. lia.
  - rewrite IH by assumption. apply handle_async_sink_writes.
Qed.

(** Once the flag is set the loop writes nothing more. *)
Lemma receive_killed (evs : list stream_event) (ls : loop_state) (w : World) :
  killed (st w) = true ->
  sink_writes (effects (world_of (receive cfg input evs ls w))) =
  sink_writes (effects w).
Proof.
  revert ls w. induction evs as [|[t|a] evs IH]; intros ls w K; simpl.
  - reflexivity.
  - rewrite K. reflexivity.
  - rewrite IH; [apply handle_async_sink_writes|].
    destruct (handle_async_quiet a w) as (_ & Km & _). auto.
Qed.

End BufferingLoop.

(** ** The paced tail loop *)

Lemma paced_killed (cfg : config) (buf : list jsstring)
    (ws : list (list async_event)) (w : World) :
  killed (st w) = true -> paced cfg buf ws w = w.
Proof. intros K. destruct buf; simpl; [|rewrite K]; reflexivity. Qed.

Lemma paced_quiet (cfg : config) (buf : list jsstring)
    (ws : list (list async_event)) (w : World) :
  quiet w (paced cfg buf ws w).
Proof.
  revert ws w. induction buf as [|t buf IH]; intros ws w; simpl.
  - apply quiet_refl.
  - destruct (killed (st w)); [apply quiet_refl|].
    eapply quiet_trans; [apply handle_asyncs_quiet|].
    eapply quiet_trans; [apply writeToken_quiet | apply IH].
Qed.

Lemma stream_and_drain_quiet (cfg : config) (input : jsstring)
    (sched : schedule) (w : World) :
  quiet w (stream_and_drain cfg input sched w).
Proof.
  unfold stream_and_drain.
  pose proof (receive_quiet cfg input (stream sched) loop_init w) as Q.
  destruct (receive cfg input (stream sched) loop_init w) as [ls w'|w'];
    simpl in Q; [|exact Q].
  eapply quiet_trans; [exact Q | apply paced_quiet].
Qed.

(** A run whose flag is set when the token loop ends emits nothing in the
    tail. *)
Lemma stream_and_drain_killed (cfg : config) (input : jsstring)
    (sched : schedule) (w : World) :
  killed (st (world_of (receive cfg input (stream sched) loop_init w))) = true ->
  stream_and_drain cfg input sched w =
  world_of (receive cfg input (stream sched) loop_init w).
Proof.
  unfold stream_and_drain.
  destruct (receive cfg input (stream sched) loop_init w) as [ls w'|w'];
    simpl; intros K; [apply paced_killed; exact K | reflexivity].
Qed.

(** ** Start and end of a run *)

Lemma createWriteStream_silent (w : World) : silent w (createWriteStream w).
Proof.
  unfold createWriteStream, silent.
  destruct (_ >? 1); [destruct (_ && _)|]; simpl;
    (repeat split; eexists; split;
     [ try reflexivity; rewrite <- app_assoc; reflexivity | simpl; auto ]).
Qed.

Lemma begin_stream_busy (cfg : config) (input : jsstring) (w : World) :
  busy (st (begin_stream cfg input w)) = true.
Proof.
  unfold begin_stream. simpl. destruct (append cfg).
  - destruct (createWriteStream_silent (with_st (set_busy true) w)) as (B & _).
    rewrite B. reflexivity.
  - rewrite writeToken_st. reflexivity.
Qed.

Lemma begin_stream_effects (cfg : config) (input : jsstring) (w : World) :
  exists es,
    effects (begin_stream cfg input w) =
    effects w ++ es ++ [CreateCompletionStream (replace_trailing_newline input)] /\
    sink_writes es =
      (if append cfg then [] else [replace_trailing_newline input]) /\
    immediate_disposals es = 0%nat /\ deferred_disposals es = 0%nat /\
    prompts es = [].
Proof.
  unfold begin_stream. simpl. destruct (append cfg).
  - destruct (createWriteStream_silent (with_st (set_busy true) w))
      as (_ & _ & es & E & S & I & D & P).
    exists es. rewrite E. simpl. rewrite <- app_assoc. auto.
  - rewrite writeToken_effects. simpl.
    eexists. rewrite <- app_assoc. split; [reflexivity|]. simpl. auto.
Qed.

(** With [busy] set, the end of a run writes the final newline, stops the
    indicator, restores the input and arms the 800ms timer. *)
Lemma proccessingStopped_effects (cfg : config) (w : World) :
  busy (st w) = true ->
  effects (proccessingStopped cfg w) =
  effects w ++ [SinkWrite (sink_of cfg) nl; ClearInterval (flashLoop (st w));
                StderrWrite SHOW_CURSOR; SetTimeoutDispose 800].
Proof.
  intros B. unfold proccessingStopped, shutdown.
  autorewrite with world_st. simpl. rewrite B.
  autorewrite with world_effects world_st.
  rewrite <- !app_assoc. reflexivity.
Qed.

Lemma proccessingStopped_busy (cfg : config) (w : World) :
  busy (st w) = true -> busy (st (proccessingStopped cfg w)) = true.
Proof.
  intros B. unfold proccessingStopped, shutdown.
  autorewrite with world_st. simpl. rewrite B.
  autorewrite with world_st. exact B.
Qed.

(** The shape of the effects of a whole run: the effects of the start,
    the creation of the stream, the effects of the two loops, and the four
    effects of [proccessingStopped]. *)
Lemma processStream_shape (cfg : config) (input : jsstring)
    (sched : schedule) (w : World) :
  exists es1 es2 fl,
    effects (processStream cfg input sched w) =
      effects w ++ es1 ++ [CreateCompletionStream (replace_trailing_newline input)]
        ++ es2 ++ [SinkWrite (sink_of cfg) nl; ClearInterval fl;
                   StderrWrite SHOW_CURSOR; SetTimeoutDispose 800] /\
    effects (stream_and_drain cfg (replace_trailing_newline input) sched
               (begin_stream cfg input w)) =
      effects (begin_stream cfg input w) ++ es2 /\
    sink_writes es1 =
      (if append cfg then [] else [replace_trailing_newline input]) /\
    immediate_disposals es1 = 0%nat /\ deferred_disposals es1 = 0%nat /\
    prompts es1 = [] /\
    immediate_disposals es2 = 0%nat /\ deferred_disposals es2 = 0%nat /\
    prompts es2 = [] /\
    busy (st (processStream cfg input sched w)) = true.
Proof.
  unfold processStream.
  destruct (begin_stream_effects cfg input w) as (es1 & E1 & S1 & I1 & D1 & P1).
  pose proof (begin_stream_busy cfg input w) as B1.
  destruct (stream_and_drain_quiet cfg (replace_trailing_newline input) sched
              (begin_stream cfg input w)) as (B2 & _ & es2 & E2 & I2 & D2 & P2).
  rewrite B1 in B2.
  exists es1, es2. eexists.
  rewrite (proccessingStopped_effects _ _ B2), E2, E1.
  rewrite <- !app_assoc.
  repeat split; auto using proccessingStopped_busy.
Qed.

(** ** Everything that runs after the start keeps [busy] *)

Lemma blockInput_silent (w : World) : silent w (blockInput w).
Proof.
  unfold silent, blockInput. rewrite stderr_write_st, stderr_write_effects.
  frame.
Qed.

Lemma startIndicating_silent (w : World) : silent w (startIndicating w).
Proof.
  unfold silent, startIndicating. simpl.
  frame.
Qed.

Lemma shutdown_busy (w : World) :
  busy (st w) = true -> shutdown w = log (SetTimeoutDispose 800) w.
Proof. unfold shutdown. intros ->. reflexivity. Qed.

Lemma quiet_steady (w w' : World) :
  quiet w w' -> busy (st w) = true ->
  busy (st w') = true /\
  immediate_disposals (effects w') = immediate_disposals (effects w) /\
  (deferred_disposals (effects w) <= deferred_disposals (effects w'))%nat.
Proof.
  intros (B & _ & es & E & I & D & _) Hb.
  rewrite E, immediate_disposals_app, deferred_disposals_app, I, D.
  repeat split; [congruence | lia | lia].
Qed.

Lemma run_entry_steady (e : entry) (w : World) :
  busy (st w) = true ->
  busy (st (run_entry e w)) = true /\
  immediate_disposals (effects (run_entry e w)) =
    immediate_disposals (effects w) /\
  (deferred_disposals (effects w) <=
   deferred_disposals (effects (run_entry e w)))%nat.
Proof.
  intros B. destruct e; simpl run_entry.
  - apply quiet_steady; [apply (handle_async_quiet (KeyData key)) | exact B].
  - apply quiet_steady; [apply (handle_async_quiet Tick) | exact B].
  - unfold on_uncaughtException. rewrite log_st, B.
    rewrite shutdown_busy by (rewrite log_st; exact B).
    rewrite !log_st, !log_effects, <- app_assoc,
      immediate_disposals_app, deferred_disposals_app.
    simpl. repeat split; [exact B | lia | lia].
  - rewrite shutdown_busy by exact B.
    rewrite log_st, log_effects, immediate_disposals_app, deferred_disposals_app.
    simpl. repeat split; [exact B | lia | lia].
  - unfold handleProcessingError.
    rewrite shutdown_busy by (rewrite log_st; exact B).
    rewrite !log_st, !log_effects, <- app_assoc,
      immediate_disposals_app, deferred_disposals_app.
    simpl. repeat split; [exact B | lia | lia].
  - rewrite (proccessingStopped_effects _ _ B),
      immediate_disposals_app, deferred_disposals_app.
    simpl. repeat split; [apply proccessingStopped_busy; exact B | lia | lia].
  - apply quiet_steady; [apply writeToken_quiet | exact B].
  - apply quiet_steady; [apply silent_quiet, stopIndicating_silent | exact B].
  - apply quiet_steady; [apply silent_quiet, startIndicating_silent | exact B].
  - apply quiet_steady; [apply silent_quiet, blockInput_silent | exact B].
  - apply quiet_steady; [apply silent_quiet, restoreInput_silent | exact B].
  - destruct (processStream_shape cfg input sched w)
      as (es1 & es2 & fl & E & _ & _ & I1 & D1 & _ & I2 & D2 & _ & Bf).
    rewrite E. rewrite !immediate_disposals_app, !deferred_disposals_app,
      I1, I2, D1, D2.
    simpl. repeat split; [exact Bf | lia | lia].
Qed.

Lemma run_entries_steady (es : list entry) (w : World) :
  busy (st w) = true ->
  busy (st (run_entries es w)) = true /\
  immediate_disposals (effects (run_entries es w)) =
    immediate_disposals (effects w) /\
  (deferred_disposals (effects w) <=
   deferred_disposals (effects (run_entries es w)))%nat.
Proof.
  revert w. induction es as [|e es IH]; intros w B; simpl.
  - repeat split; [exact B | lia].
  - destruct (run_entry_steady e w B) as (B1 & I1 & D1).
    destruct (IH _ B1) as (B2 & I2 & D2).
    unfold run_entries in *. repeat split; [exact B2 | congruence | lia].
Qed.

(** ** The live phase without cancellation *)

(** One token keeps the invariant and appends the (seam-fixed) token. *)
Lemma on_token_live (cfg : config) (input t : jsstring) (base : list jsstring)
    (ls : loop_state) (w : World) :
  0 <= bufferAhead cfg ->
  live_inv (bufferAhead cfg) base ls w ->
  live_inv (bufferAhead cfg) base
           (fst (on_token cfg input t ls w)) (snd (on_token cfg input t ls w)) /\
  buffer (fst (on_token cfg input t ls w)) =
    buffer ls ++
    [if (currentToken ls <? 0) && startsWith_space t && endsWith_space input
     then slice1 t else t].
Proof.
  intros Hd (K & Ct & Ci & Sw). unfold on_token.
  set (t' := if (currentToken ls <? 0) && startsWith_space t
                && endsWith_space input then slice1 t else t).
  set (n := Z.of_nat (length (buffer ls))) in *.
  assert (Hlen : Z.of_nat (length (buffer ls ++ [t'])) = n + 1).
  { rewrite length_app. simpl. lia. }
  destruct (currentToken ls + 1 >=? bufferAhead cfg) eqn:G.
  - (* the buffer is [bufferAhead] ahead: one token is written *)
    assert (Hge : bufferAhead cfg <= n) by lia.
    simpl fst; simpl snd. split; [|reflexivity].
    unfold live_inv. simpl buffer. simpl currentToken. simpl currentIndex.
    rewrite Hlen, writeToken_st, writeToken_effects, sink_writes_app.
    set (w1 := if (currentToken ls + 1 =? bufferAhead cfg)
                  && negb (append cfg) && isTTY cfg
               then stopIndicating w else w).
    assert (S1 : silent w w1).
    { subst w1.
      destruct ((currentToken ls + 1 =? bufferAhead cfg)
                && negb (append cfg) && isTTY cfg);
        [apply stopIndicating_silent | apply silent_refl]. }
    rewrite (silent_sink_writes _ _ S1), Sw.
    destruct S1 as (_ & K1 & _). rewrite K1.
    repeat split; [exact K | lia | lia |].
    rewrite Ci. unfold js_index.
    replace (Z.max 0 (n - bufferAhead cfg)) with (n - bufferAhead cfg) by lia.
    destruct (n - bufferAhead cfg <? 0) eqn:L; [lia|].
    set (k := Z.to_nat (n - bufferAhead cfg)).
    assert (Hk : (k <= length (buffer ls))%nat) by (subst k n; lia).
    destruct (nth_error_snoc_lt (buffer ls) t' k Hk) as (y & Hy).
    rewrite Hy. simpl.
    replace (Z.to_nat (n + 1 - bufferAhead cfg)) with (S k) by (subst k; lia).
    rewrite (firstn_snoc_nth _ _ _ Hy), firstn_app_le by exact Hk.
    rewrite <- app_assoc. reflexivity.
  - (* still filling *)
    assert (Hlt : n < bufferAhead cfg) by lia.
    destruct (currentToken ls + 1 =? bufferAhead cfg) eqn:E; [lia|].
    simpl. split; [|reflexivity].
    unfold live_inv. simpl buffer. simpl currentToken. simpl currentIndex.
    rewrite Hlen. repeat split; [exact K | lia | lia |].
    rewrite Sw.
    replace (Z.to_nat (n + 1 - bufferAhead cfg)) with 0%nat by lia.
    replace (Z.to_nat (n - bufferAhead cfg)) with 0%nat by lia.
    reflexivity.
Qed.

Lemma no_cancel_async_cons (a : async_event) (evs : list stream_event) :
  no_cancel (Async a :: evs) = true ->
  no_cancel [Async a] = true /\ no_cancel evs = true.
Proof.
  destruct a as [key|]; simpl; [|auto].
  rewrite andb_true_r. apply andb_true_iff.
Qed.

(** An event other than Ctrl-C leaves the flag clear. *)
Lemma handle_async_keeps_clear (a : async_event) (w : World) :
  no_cancel [Async a] = true -> killed (st w) = false ->
  killed (st (handle_async a w)) = false.
Proof.
  intros N K. destruct a as [key|]; simpl in *.
  - rewrite andb_true_r in N. apply negb_true_iff in N.
    rewrite (on_data_other _ _ N). exact K.
  - destruct (flash_live w); [|exact K].
    destruct (flash_callback_silent w) as (_ & K1 & _). congruence.
Qed.

Lemma handle_async_live (a : async_event) (d : Z) (base : list jsstring)
    (ls : loop_state) (w : World) :
  no_cancel [Async a] = true ->
  live_inv d base ls w -> live_inv d base ls (handle_async a w).
Proof.
  intros N (K & Ct & Ci & Sw). unfold live_inv.
  rewrite handle_async_sink_writes. repeat split; try assumption.
  apply handle_async_keeps_clear; assumption.
Qed.

(** Without cancellation the loop runs to the end of the stream, buffers
    every token, and has written all but the last [bufferAhead] of them. *)
Lemma receive_live (cfg : config) (input : jsstring) (base : list jsstring)
    (evs : list stream_event) (ls : loop_state) (w : World) :
  0 <= bufferAhead cfg ->
  no_cancel evs = true ->
  live_inv (bufferAhead cfg) base ls w ->
  exists ls' w',
    receive cfg input evs ls w = Completed ls' w' /\
    live_inv (bufferAhead cfg) base ls' w' /\
    buffer ls' =
      buffer ls ++ (if currentToken ls <? 0
                    then seam_fix input (stream_tokens evs)
                    else stream_tokens evs).
Proof.
  intros Hd. revert ls w.
  induction evs as [|[t|a] evs IH]; intros ls w N I; simpl.
  - exists ls, w. split; [reflexivity | split; [exact I|]].
    destruct (currentToken ls <? 0); simpl; symmetry; apply app_nil_r.
  - pose proof I as (K & Ct & _). rewrite K.
    destruct (on_token_live cfg input t base ls w Hd I) as (I' & Hb).
    destruct (on_token cfg input t ls w) as [ls1 w1]. simpl in I', Hb.
    destruct (IH ls1 w1 N I') as (ls' & w' & R & I'' & Hb').
    exists ls', w'. split; [exact R | split; [exact I''|]].
    rewrite Hb', Hb, <- app_assoc. simpl.
    destruct I' as (_ & Ct1 & _).
    destruct (currentToken ls1 <? 0) eqn:L1.
    { rewrite Hb, length_app in Ct1. simpl in Ct1. lia. }
    destruct (currentToken ls <? 0); reflexivity.
  - destruct (no_cancel_async_cons a evs N) as (Na & Ne).
    apply IH; [exact Ne | apply handle_async_live; assumption].
Qed.

Lemma stream_tokens_length (evs : list stream_event) :
  length (stream_tokens evs) = count_tokens evs.
Proof.
  induction evs as [|[t|a] evs IH]; simpl; congruence.
Qed.

Lemma seam_fix_length (input : jsstring) (ts : list jsstring) :
  length (seam_fix input ts) = length ts.
Proof. destruct ts; reflexivity. Qed.

Lemma live_inv_init (d : Z) (w : World) :
  0 <= d -> killed (st w) = false ->
  live_inv d (sink_writes (effects w)) loop_init w.
Proof.
  intros Hd K. unfold live_inv. simpl.
  repeat split; [exact K | lia |].
  rewrite firstn_nil, app_nil_r. reflexivity.
Qed.

(** ** Cancellation during the fill phase *)

Lemma receive_cancel_fill (cfg : config) (input : jsstring)
    (pre post : list stream_event) (ls : loop_state) (w : World) :
  busy (st w) = true ->
  currentToken ls + Z.of_nat (count_tokens pre) < bufferAhead cfg ->
  killed (st (world_of (receive cfg input
                          (pre ++ Async (KeyData CTRL_C) :: post) ls w))) = true /\
  sink_writes (effects (world_of (receive cfg input
                          (pre ++ Async (KeyData CTRL_C) :: post) ls w))) =
  sink_writes (effects w).
Proof.
  intros B H. rewrite receive_app.
  pose proof (receive_fill cfg input pre ls w H) as F.
  pose proof (receive_quiet cfg input pre ls w) as (Bq & _).
  destruct (receive cfg input pre ls w) as [ls' w'|w'] eqn:R; simpl in F, Bq.
  - simpl receive.
    assert (K : killed (st (on_data CTRL_C w')) = true)
      by (apply on_data_ctrl_c; congruence).
    split.
    + destruct (receive_quiet cfg input post ls' (on_data CTRL_C w'))
        as (_ & Km & _). auto.
    + rewrite (receive_killed _ _ _ _ _ K), on_data_effects. exact F.
  - simpl. split; [|exact F].
    eapply receive_returned_killed; exact R.
Qed.

(** ** Streams without any boundary *)

Lemma matches_boundaries_slice1 (t : jsstring) :
  matches_boundaries t = false -> matches_boundaries (slice1 t) = false.
Proof.
  destruct t as [|c t]; simpl; [auto|].
  intros H. apply orb_false_iff in H. apply H.
Qed.

(** Without a boundary token [currentBoundary] keeps its value. *)
Lemma receive_boundary_free (cfg : config) (input : jsstring)
    (evs : list stream_event) (ls ls' : loop_state) (w w' : World) :
  boundary_free evs = true ->
  receive cfg input evs ls w = Completed ls' w' ->
  currentBoundary ls' = currentBoundary ls.
Proof.
  revert ls w. unfold boundary_free.
  induction evs as [|[t|a] evs IH]; intros ls w F R; simpl in *.
  - injection R as <- _. reflexivity.
  - apply andb_true_iff in F. destruct F as (Ft & Fe).
    apply negb_true_iff in Ft.
    destruct (killed (st w)); [discriminate|].
    destruct (on_token cfg input t ls w) as [ls1 w1] eqn:O.
    rewrite (IH _ _ Fe R).
    unfold on_token in O.
    assert (M : matches_boundaries
                  (if (currentToken ls <? 0) && startsWith_space t
                      && endsWith_space input then slice1 t else t) = false).
    { destruct (_ && _ && _); [apply matches_boundaries_slice1|]; exact Ft. }
    rewrite M in O.
    destruct (currentToken ls + 1 >=? bufferAhead cfg);
      injection O as <- _; reflexivity.
  - eapply IH; eassumption.
Qed.

Lemma seam_fix_boundary_free (input : jsstring) (ts : list jsstring) :
  forallb (fun t => negb (matches_boundaries t)) ts = true ->
  forallb (fun t => negb (matches_newline t)) (seam_fix input ts) = true.
Proof.
  assert (A : forall t, negb (matches_boundaries t) = true ->
                        negb (matches_newline t) = true).
  { intros t H. apply negb_true_iff in H. apply negb_true_iff.
    destruct (matches_newline t) eqn:E; [|reflexivity].
    rewrite (matches_newline_boundary _ E) in H. discriminate. }
  destruct ts as [|t ts]; simpl; [auto|].
  intros H. apply andb_true_iff in H. destruct H as (Ht & Hts).
  apply andb_true_iff. split.
  - apply A. destruct (_ && _); [|exact Ht].
    apply negb_true_iff. apply matches_boundaries_slice1.
    apply negb_true_iff. exact Ht.
  - apply forallb_forall. intros x Hx. apply A.
    exact (proj1 (forallb_forall _ _) Hts x Hx).
Qed.

(** The [while] loop of the drain step pops nothing when no token holds a
    line feed. *)
Lemma pop_newline_tokens_id (b : list jsstring) :
  forallb (fun t => negb (matches_newline t)) b = true ->
  pop_newline_tokens b = b.
Proof.
  intros F. unfold pop_newline_tokens.
  destruct (rev b) as [|t r] eqn:E; simpl.
  - rewrite <- (rev_involutive b), E. reflexivity.
  - assert (Ht : matches_newline t = false).
    { apply negb_true_iff.
      apply (proj1 (forallb_forall _ _) F). apply in_rev. rewrite E. left.
      reflexivity. }
    rewrite Ht, <- E. apply rev_involutive.
Qed.

(** ** The paced loop without cancellation *)

Lemma handle_asyncs_no_cancel (l : list async_event) (w : World) :
  no_cancel_async l = true -> killed (st w) = false ->
  killed (st (handle_asyncs l w)) = false.
Proof.
  unfold no_cancel_async. revert w.
  induction l as [|a l IH]; intros w N K; simpl in *; [exact K|].
  destruct (no_cancel_async_cons a (map Async l) N) as (Na & Nl).
  apply (IH _ Nl). apply handle_async_keeps_clear; assumption.
Qed.

(** Without cancellation the paced loop writes the whole trimmed buffer. *)
Lemma paced_no_cancel (cfg : config) (buf : list jsstring)
    (ws : list (list async_event)) (w : World) :
  no_cancel_waits ws = true -> killed (st w) = false ->
  sink_writes (effects (paced cfg buf ws w)) = sink_writes (effects w) ++ buf.
Proof.
  revert ws w. induction buf as [|t buf IH]; intros ws w N K; simpl.
  - symmetry. apply app_nil_r.
  - rewrite K.
    assert (Nh : no_cancel_async (hd [] ws) = true /\ no_cancel_waits (tl ws) = true).
    { destruct ws as [|l ws]; simpl in *; [auto|].
      apply andb_true_iff in N. exact N. }
    destruct Nh as (Nh & Nt).
    rewrite IH; [| exact Nt |].
    + rewrite writeToken_effects, sink_writes_app, handle_asyncs_sink_writes.
      simpl. rewrite <- app_assoc. reflexivity.
    + rewrite writeToken_st. apply handle_asyncs_no_cancel; assumption.
Qed.

(** X20. What the code does on a stream without any boundary, for a depth
    of at least one and without cancellation: every token but the last one
    reaches the sink, between the echo of the input and the final
    newline. *)
Lemma boundary_free_run (cfg : config) (input : jsstring)
    (sched : schedule) (w : World) :
  1 <= bufferAhead cfg ->
  killed (st w) = false ->
  no_cancel (stream sched) = true ->
  no_cancel_waits (waits sched) = true ->
  boundary_free (stream sched) = true ->
  sink_writes (effects (processStream cfg input sched w)) =
  sink_writes (effects w) ++
  (if append cfg then [] else [replace_trailing_newline input]) ++
  removelast (seam_fix (replace_trailing_newline input)
                       (stream_tokens (stream sched))) ++ [nl].
Proof.
  intros Hd K N Nw F.
  set (input' := replace_trailing_newline input).
  set (w1 := begin_stream cfg input w).
  assert (B1 : busy (st w1) = true) by apply begin_stream_busy.
  destruct (begin_stream_effects cfg input w) as (es1 & E1 & S1 & _).
  fold w1 input' in E1, S1.
  assert (K1 : killed (st w1) = false).
  { subst w1. unfold begin_stream. rewrite log_st. destruct (append cfg).
    - destruct (createWriteStream_silent (with_st (set_busy true) w))
        as (_ & Kc & _). rewrite Kc. exact K.
    - rewrite writeToken_st. exact K. }
  assert (Hd0 : 0 <= bufferAhead cfg) by lia.
  destruct (receive_live cfg input' (sink_writes (effects w1)) (stream sched)
              loop_init w1 Hd0 N (live_inv_init _ w1 Hd0 K1))
    as (ls & w2 & R & (K2 & Ct & Ci & Sw) & Hb).
  simpl in Hb.
  pose proof (receive_boundary_free _ _ _ _ _ _ _ F R) as Cb. simpl in Cb.
  set (ts := seam_fix input' (stream_tokens (stream sched))) in *.
  assert (Fts : forallb (fun t => negb (matches_newline t)) ts = true)
    by (apply seam_fix_boundary_free; exact F).
  set (n := length ts).
  set (k := Z.to_nat (Z.of_nat n - bufferAhead cfg)).
  assert (Hdrain : drain ls = firstn (Nat.pred n - k) (skipn k ts)).
  { unfold drain. rewrite Cb. change (truthy (-1)) with true.
    cbv beta iota zeta. rewrite Ci, Hb. fold n.
    assert (Sl : js_slice ts (Z.max 0 (Z.of_nat n - bufferAhead cfg)) (-1) =
                 firstn (Nat.pred n - k) (skipn k ts)).
    { unfold js_slice. fold n. cbv zeta.
      destruct (Z.max 0 (Z.of_nat n - bufferAhead cfg) <? 0) eqn:L; [lia|].
      change (-1 <? 0) with true. cbv iota.
      f_equal; [|f_equal]; subst k; lia. }
    rewrite Sl.
    apply pop_newline_tokens_id. apply forallb_firstn_skipn. exact Fts. }
  unfold processStream. fold w1 input'.
  assert (E2 : sink_writes (effects (stream_and_drain cfg input' sched w1)) =
               sink_writes (effects w1) ++ removelast ts).
  { unfold stream_and_drain. rewrite R, (paced_no_cancel _ _ _ _ Nw K2), Sw.
    rewrite Hb, Hdrain. fold n k. rewrite <- app_assoc, firstn_firstn_skipn.
    f_equal. rewrite removelast_firstn_len. fold n. f_equal. subst k. lia. }
  destruct (stream_and_drain_quiet cfg input' sched w1) as (B2 & _).
  rewrite proccessingStopped_effects by congruence.
  rewrite sink_writes_app, E2, E1, !sink_writes_app, S1. simpl.
  rewrite <- !app_assoc. reflexivity.
Qed.

(** ** The indicator on the live path *)

Lemma handle_async_effects (a : async_event) (w : World) :
  exists es, effects (handle_async a w) = effects w ++ es /\
             forall rest, stopped_before_first_write (es ++ rest) =
                          stopped_before_first_write rest.
Proof.
  destruct a as [key|]; simpl.
  - exists []. rewrite on_data_effects, app_nil_r. auto.
  - destruct (flash_live w); [|exists []; rewrite app_nil_r; auto].
    unfold flash_callback.
    destruct (flashOn (st w)); rewrite stderr_write_effects;
      eexists; (split; [reflexivity | intros rest; reflexivity]).
Qed.

(** X21. In terminal mode, on a stream long enough for the live loop to
    write, [clearInterval] precedes the first write of the loop. *)
Lemma live_path_stops_indicator (cfg : config) (input : jsstring)
    (evs : list stream_event) (ls : loop_state) (w : World) :
  append cfg = false -> isTTY cfg = true ->
  killed (st w) = false -> no_cancel evs = true ->
  currentToken ls < bufferAhead cfg <= currentToken ls + Z.of_nat (count_tokens evs) ->
  exists es,
    effects (world_of (receive cfg input evs ls w)) = effects w ++ es /\
    stopped_before_first_write es = true.
Proof.
  intros Ha Ht. revert ls w.
  induction evs as [|[t|a] evs IH]; intros ls w K N H; simpl in *.
  - lia.
  - rewrite K.
    destruct (Z.eq_dec (currentToken ls + 1) (bufferAhead cfg)) as [E|E].
    + (* this token fills the buffer *)
      pose proof (receive_quiet cfg input evs
                    (fst (on_token cfg input t ls w))
                    (snd (on_token cfg input t ls w)))
        as (_ & _ & es & Ee & _).
      destruct (on_token cfg input t ls w) as [ls1 w1] eqn:O. simpl in Ee.
      unfold on_token in O. rewrite Ha, Ht in O.
      apply Z.eqb_eq in E. rewrite E in O. simpl in O.
      apply Z.eqb_eq in E.
      destruct (currentToken ls + 1 >=? bufferAhead cfg) eqn:G; [|lia].
      injection O as _ <-.
      rewrite writeToken_effects, stopIndicating_effects, <- !app_assoc in Ee.
      eexists. split; [exact Ee | reflexivity].
    + destruct (on_token_fill cfg input t ls w) as [Ew Ec]; [lia|].
      destruct (on_token cfg input t ls w) as [ls1 w1]. simpl in Ew, Ec.
      subst w1. apply IH; [exact K | exact N | lia].
  - destruct (no_cancel_async_cons a evs N) as (Na & Ne).
    destruct (handle_async_effects a w) as (e0 & E0 & S0).
    destruct (IH ls (handle_async a w)) as (es & Ee & Se);
      [apply handle_async_keeps_clear; assumption | exact Ne | exact H |].
    exists (e0 ++ es). rewrite Ee, E0, <- app_assoc. split; [reflexivity|].
    rewrite S0. exact Se.
Qed.

(* ===================================================================== *)
(** * The claims of the specification *)
(* ===================================================================== *)

(** C1, on the boundary-free scenario of the specification (depth 2,
    tokens [" and"], [" then"], [" it"], [" kept"], [" going"], empty
    prompt): in every output mode the sink receives the echo of the prompt
    (outside append mode), then [" and"], [" then"], [" it"] from the live
    loop, then [" kept"] from the paced loop, then the final newline. The
    last token, [" going"], is never written: with no boundary recorded,
    [currentBoundary] is still [-1], which is truthy, so the trimming block
    runs and [slice(currentIndex, -1)] drops the last token. *)
Theorem boundary_free_stream_loses_last_token :
  forall append_mode tty : bool,
    sink_writes (effects (main (fragment_cfg append_mode tty) [] []
                               fragment_schedule)) =
    (if append_mode then [] else [[]]) ++
    [lit " and"; lit " then"; lit " it"; lit " kept"; nl].
Proof. intros [|] [|]; vm_compute; reflexivity. Qed.

(** C2 as the specification states it fails: in the terminal and in the
    redirected mode the text that reaches the sink is
    ["This is a storabout something."] and a newline; in append mode the
    text written to the file is ["about something."] and a newline. None
    is ["This is a story about something."] followed by a newline. *)
Lemma story_output_is_not_the_stated_text :
  sink_text (effects (main (story_cfg false true) [] story_input story_schedule))
    = lit "This is a storabout something." ++ nl /\
  sink_text (effects (main (story_cfg false true) [] story_input story_schedule))
    <> lit "This is a story about something." ++ nl /\
  sink_text (effects (main (story_cfg false false) [] story_input story_schedule))
    <> lit "This is a story about something." ++ nl /\
  sink_text (effects (main (story_cfg true false) [] story_input story_schedule))
    <> lit "This is a story about something." ++ nl.
Proof.
  split; [vm_compute; reflexivity|].
  repeat split; vm_compute; discriminate.
Qed.

(** C2, amended: for the input ["This is a story\n"], depth 3 and the token
    stream ["about"], [" something"], ["."], in every output mode, the loop
    ends with the boundary recorded after ["."] (position 3) and nothing
    written yet; the drain step keeps all three tokens; and the writes to
    the sink are the echo of the trimmed input (outside append mode)
    followed by ["about"], [" something"], ["."] and the final newline, the
    tokens as they were produced. *)
Theorem story_scenario :
  forall append_mode tty : bool,
    let cfg := story_cfg append_mode tty in
    let w0 := startIndicating (blockInput (initial_world [])) in
    exists ls w',
      receive cfg (replace_trailing_newline story_input) story_tokens
              loop_init (begin_stream cfg story_input w0) = Completed ls w' /\
      currentBoundary ls = 3 /\
      currentIndex ls = 0 /\
      drain ls = [lit "about"; lit " something"; lit "."] /\
      sink_writes (effects (main cfg [] story_input story_schedule)) =
        (if append_mode then [] else [replace_trailing_newline story_input]) ++
        [lit "about"; lit " something"; lit "."; nl].
Proof.
  intros [|] [|]; simpl; eexists; eexists;
    (split; [vm_compute; reflexivity|]);
    repeat split; vm_compute; reflexivity.
Qed.

(** C3, on two tokens: the detector of the source does not match the
    horizontal ellipsis U+2026, and it matches the euro sign U+20AC. The
    character class of the source holds the three characters U+00E2,
    U+20AC, U+00A6 where the ellipsis is meant. *)
Theorem detector_misses_ellipsis :
  matches_boundaries ELLIPSIS = false /\ matches_boundaries EURO = true.
Proof. split; reflexivity. Qed.

(** C4 as the specification states it fails: with depth 1 and one token,
    the number of buffered tokens has reached the depth and the live loop
    has written nothing. *)
Lemma no_emission_at_depth_tokens :
  exists ls w',
    receive (mkConfig false false 1) [] [Token (lit "a")] loop_init
            (initial_world []) = Completed ls w' /\
    Z.of_nat (length (buffer ls)) = bufferAhead (mkConfig false false 1) /\
    sink_writes (effects w') = [].
Proof. eexists; eexists. repeat split. Qed.

(** C4, amended: for every depth [d >= 0], in a live phase without
    cancellation, nothing is written to the sink while at most [d] tokens
    have been pushed into the buffer, and the first buffered token is
    written when token number [d + 1] is pushed, that is, when
    [currentToken], the index of the last pushed token, reaches [d]. After
    [k] tokens the loop has written the first [k - d] of them. *)
Theorem live_emission_lags_by_depth :
  forall (cfg : config) (input : jsstring) (evs : list stream_event) (w : World),
    0 <= bufferAhead cfg ->
    killed (st w) = false ->
    no_cancel evs = true ->
    exists ls w',
      receive cfg input evs loop_init w = Completed ls w' /\
      buffer ls = seam_fix input (stream_tokens evs) /\
      currentToken ls = Z.of_nat (count_tokens evs) - 1 /\
      sink_writes (effects w') =
        sink_writes (effects w) ++
        firstn (Z.to_nat (Z.of_nat (count_tokens evs) - bufferAhead cfg))
               (buffer ls) /\
      (Z.of_nat (count_tokens evs) <= bufferAhead cfg ->
       sink_writes (effects w') = sink_writes (effects w)) /\
      (Z.of_nat (count_tokens evs) = bufferAhead cfg + 1 ->
       sink_writes (effects w') = sink_writes (effects w) ++ firstn 1 (buffer ls)).
Proof.
  intros cfg input evs w Hd K N.
  destruct (receive_live cfg input (sink_writes (effects w)) evs loop_init w
              Hd N (live_inv_init _ w Hd K))
    as (ls & w' & R & (K' & Ct & Ci & Sw) & Hb).
  simpl in Hb.
  assert (Hn : length (buffer ls) = count_tokens evs).
  { rewrite Hb, seam_fix_length. apply stream_tokens_length. }
  rewrite Hn in *.
  exists ls, w'. repeat split; try assumption.
  - intros Hle. rewrite Sw.
    replace (Z.to_nat (Z.of_nat (count_tokens evs) - bufferAhead cfg))
      with 0%nat by lia.
    simpl. apply app_nil_r.
  - intros Heq. rewrite Sw, Heq. do 2 f_equal. lia.
Qed.

Lemma live_emission_lags_by_depth_witness :
  0 <= bufferAhead (mkConfig false false 1) /\
  killed (st (initial_world [])) = false /\
  no_cancel [Token (lit "a"); Token (lit "b")] = true /\
  exists ls w',
    receive (mkConfig false false 1) [] [Token (lit "a"); Token (lit "b")]
            loop_init (initial_world []) = Completed ls w' /\
    sink_writes (effects w') = [lit "a"].
Proof.
  assert (Hd : 0 <= bufferAhead (mkConfig false false 1)) by (simpl; lia).
  assert (K : killed (st (initial_world [])) = false) by reflexivity.
  assert (N : no_cancel [Token (lit "a"); Token (lit "b")] = true)
    by reflexivity.
  repeat split; try assumption.
  destruct (live_emission_lags_by_depth (mkConfig false false 1) []
              [Token (lit "a"); Token (lit "b")] (initial_world []) Hd K N)
    as (ls & w' & R & Hb & _ & _ & _ & H1).
  exists ls, w'. split; [exact R|].
  rewrite (H1 eq_refl), Hb. reflexivity.
Defined.

(** C5, on a three-byte file ["ab\n"]: the file ends in exactly one
    newline and the normalisation leaves it as it is, because
    [eof = size - 2 = 1] does not pass the guard [eof > 1]. *)
Theorem short_file_is_not_truncated :
  inputFile (createWriteStream (initial_world short_file)) = short_file /\
  effects (createWriteStream (initial_world short_file)) = [OpenWriteStream].
Proof. split; reflexivity. Qed.

(** C6, on the scenario of the specification in terminal mode (depth 3,
    three tokens, so the buffer never fills): no [clearInterval] precedes
    the first write that follows the creation of the stream. With the
    timer firing during the first paced delay, the log shows the
    indicator's write on stderr just before the first token, and
    [clearInterval] only after the final newline. *)
Theorem indicator_runs_during_paced_tail :
  stopped_before_first_write
    (after_stream_creation
       (effects (main (story_cfg false true) [] story_input story_schedule)))
    = false /\
  after_stream_creation
    (effects (main (story_cfg false true) [] story_input story_schedule_tick))
    = [StderrWrite (lit "..." ++ BS3);
       SinkWrite TerminalLine (lit "about");
       SinkWrite TerminalLine (lit " something");
       SinkWrite TerminalLine (lit ".");
       SinkWrite TerminalLine nl;
       ClearInterval (Some FlashTimer);
       StderrWrite SHOW_CURSOR;
       SetTimeoutDispose 800].
Proof. split; vm_compute; reflexivity. Qed.

(** C7: if Ctrl-C arrives while at most [bufferAhead] tokens have been
    pushed (so before any live emission), whatever follows in the stream
    and during the delays, no token reaches the sink: the writes of the
    whole run are the echo of the input (outside append mode) and the
    final newline of [proccessingStopped]. *)
Theorem cancel_in_fill_phase :
  forall (cfg : config) (input : jsstring) (pre post : list stream_event)
         (ws : list (list async_event)) (w : World),
    Z.of_nat (count_tokens pre) <= bufferAhead cfg ->
    sink_writes
      (effects (processStream cfg input
                  (mkSchedule (pre ++ Async (KeyData CTRL_C) :: post) ws) w)) =
    sink_writes (effects w) ++
    (if append cfg then [] else [replace_trailing_newline input]) ++ [nl].
Proof.
  intros cfg input pre post ws w H.
  set (sched := mkSchedule (pre ++ Async (KeyData CTRL_C) :: post) ws).
  destruct (processStream_shape cfg input sched w)
    as (es1 & es2 & fl & E & E2 & S1 & _).
  assert (S2 : sink_writes es2 = []).
  { destruct (receive_cancel_fill cfg (replace_trailing_newline input)
                pre post loop_init (begin_stream cfg input w)) as (K & F).
    - apply begin_stream_busy.
    - change (currentToken loop_init) with (-1). lia.
    - rewrite (stream_and_drain_killed _ _ sched _ K) in E2.
      simpl stream in E2. rewrite E2, sink_writes_app in F.
      rewrite <- (app_nil_r (sink_writes (effects (begin_stream cfg input w))))
        in F at 2.
      apply app_inv_head in F. exact F. }
  rewrite E, !sink_writes_app, S1, S2. reflexivity.
Qed.

Lemma cancel_in_fill_phase_witness :
  Z.of_nat (count_tokens [Token (lit "about")])
    <= bufferAhead (story_cfg false true) /\
  sink_writes
    (effects (processStream (story_cfg false true) story_input
                (mkSchedule ([Token (lit "about")] ++
                             Async (KeyData CTRL_C) :: [Token (lit " something")])
                            [])
                (startIndicating (blockInput (initial_world []))))) =
  [lit "This is a stor"; nl].
Proof.
  assert (H : Z.of_nat (count_tokens [Token (lit "about")])
              <= bufferAhead (story_cfg false true)) by (simpl; lia).
  split; [exact H|].
  rewrite (cancel_in_fill_phase (story_cfg false true) story_input
             [Token (lit "about")] [Token (lit " something")] []
             (startIndicating (blockInput (initial_world []))) H).
  reflexivity.
Defined.

(** C8: [restoreInput] is idempotent on the terminal state. After one call
    the input handler is the original one and the cursor is visible; a
    second call leaves the handler and the cursor mode as the first call
    left them, and changes nothing else than the log of stderr, to which
    it adds the show-cursor sequence once more. *)
Theorem restoreInput_idempotent :
  forall w : World,
    rl_ttyWrite (restoreInput w) = TtyOriginal /\
    cursor_hidden (restoreInput w) = false /\
    rl_ttyWrite (restoreInput (restoreInput w)) = rl_ttyWrite (restoreInput w) /\
    cursor_hidden (restoreInput (restoreInput w)) =
      cursor_hidden (restoreInput w) /\
    restoreInput (restoreInput w) =
      log (StderrWrite SHOW_CURSOR) (restoreInput w).
Proof. intros w. repeat split. Qed.

(** C9: when the input ends with a newline that follows another
    character, the initial trim of [processStream] removes both, the
    newline and the character before it. The prompt handed to the model is
    the input without its last two code units, and so is the first write
    to the sink outside append mode (in append mode the input is not
    echoed). *)
Theorem initial_trim_removes_two_code_units :
  forall (pre : jsstring) (c : Z) (cfg : config) (sched : schedule) (w : World),
    c <> LF ->
    replace_trailing_newline (pre ++ [c; LF]) = pre /\
    prompts (effects (processStream cfg (pre ++ [c; LF]) sched w)) =
      prompts (effects w) ++ [pre] /\
    exists rest,
      sink_writes (effects (processStream cfg (pre ++ [c; LF]) sched w)) =
      sink_writes (effects w) ++ (if append cfg then [] else [pre]) ++ rest.
Proof.
  intros pre c cfg sched w Hc.
  pose proof (replace_trailing_newline_match pre c Hc) as T.
  destruct (processStream_shape cfg (pre ++ [c; LF]) sched w)
    as (es1 & es2 & fl & E & _ & S1 & _ & _ & P1 & _ & _ & P2 & _).
  rewrite T in E, S1. rewrite E.
  split; [exact T | split].
  - rewrite !prompts_app, P1, P2. simpl. reflexivity.
  - exists (sink_writes es2 ++ [nl]).
    rewrite !sink_writes_app, S1. simpl. reflexivity.
Qed.

Lemma initial_trim_removes_two_code_units_witness :
  121 <> LF /\
  replace_trailing_newline story_input = lit "This is a stor" /\
  prompts (effects (main (story_cfg false true) [] story_input story_schedule)) =
    [lit "This is a stor"].
Proof.
  assert (Hc : 121 <> LF) by discriminate.
  split; [exact Hc|].
  destruct (initial_trim_removes_two_code_units
              (lit "This is a stor") 121 (story_cfg false true) story_schedule
              (startIndicating (blockInput (initial_world []))) Hc)
    as (T & P & _).
  split; [exact T | exact P].
Defined.

(** C10: [processStream] sets [state.busy] and nothing resets it. Whatever
    ran before a run ([before]) and whatever runs after it ([after]: input
    events, timer ticks, uncaught exceptions, calls of [shutdown] and of
    the functions that call it, further runs), [busy] is true at the end
    of the run and stays true; the run arms the 800ms disposal timer
    exactly once; and no [model.dispose()] is made directly from the start
    of the run on, so every [shutdown] since then took the deferred
    branch. In any world, [shutdown] either finds [busy] false or arms the
    timer. *)
Theorem busy_is_never_reset :
  forall (before after : list entry) (cfg : config) (input : jsstring)
         (sched : schedule) (w : World),
    let w1 := run_entries before w in
    let w2 := processStream cfg input sched w1 in
    let w3 := run_entries after w2 in
    busy (st w2) = true /\
    busy (st w3) = true /\
    deferred_disposals (effects w2) = S (deferred_disposals (effects w1)) /\
    immediate_disposals (effects w2) = immediate_disposals (effects w1) /\
    immediate_disposals (effects w3) = immediate_disposals (effects w1) /\
    (deferred_disposals (effects w2) <= deferred_disposals (effects w3))%nat /\
    (forall w' : World,
        busy (st w') = false \/ shutdown w' = log (SetTimeoutDispose 800) w').
Proof.
  intros before after cfg input sched w w1 w2 w3.
  destruct (processStream_shape cfg input sched w1)
    as (es1 & es2 & fl & E & _ & _ & I1 & D1 & _ & I2 & D2 & _ & B2).
  fold w2 in E, B2.
  destruct (run_entries_steady after w2 B2) as (B3 & I3 & D3).
  fold w3 in B3, I3, D3.
  assert (Dw2 : deferred_disposals (effects w2) = S (deferred_disposals (effects w1))).
  { rewrite E, !deferred_disposals_app, D1, D2. simpl. lia. }
  assert (Iw2 : immediate_disposals (effects w2) = immediate_disposals (effects w1)).
  { rewrite E, !immediate_disposals_app, I1, I2. simpl. lia. }
  repeat split; try assumption; try congruence.
  intros w'. destruct (busy (st w')) eqn:B; [right | left; reflexivity].
  apply shutdown_busy. exact B.
Qed.

(* ===================================================================== *)
(** * Further properties of the code *)
(* ===================================================================== *)

(** ** A run, seen from the sink *)

Lemma begin_stream_sink (cfg : config) (input : jsstring) (w : World) :
  sink_writes (effects (begin_stream cfg input w)) =
  sink_writes (effects w) ++
  (if append cfg then [] else [replace_trailing_newline input]).
Proof.
  destruct (begin_stream_effects cfg input w) as (es & E & S & _).
  rewrite E, !sink_writes_app, S. simpl. rewrite app_nil_r. reflexivity.
Qed.

Lemma begin_stream_killed (cfg : config) (input : jsstring) (w : World) :
  killed (st (begin_stream cfg input w)) = killed (st w).
Proof.
  unfold begin_stream. rewrite log_st. destruct (append cfg).
  - destruct (createWriteStream_silent (with_st (set_busy true) w))
      as (_ & K & _). rewrite K. reflexivity.
  - rewrite writeToken_st. reflexivity.
Qed.

Lemma processStream_sink (cfg : config) (input : jsstring)
    (sched : schedule) (w : World) :
  sink_writes (effects (processStream cfg input sched w)) =
  sink_writes (effects (stream_and_drain cfg (replace_trailing_newline input)
                          sched (begin_stream cfg input w))) ++ [nl].
Proof.
  unfold processStream.
  destruct (stream_and_drain_quiet cfg (replace_trailing_newline input) sched
              (begin_stream cfg input w)) as (B & _).
  rewrite begin_stream_busy in B.
  rewrite (proccessingStopped_effects _ _ B), sink_writes_app. reflexivity.
Qed.

(** ** The order of the tokens on the sink *)

Section Order.

Variable cfg : config.
Variable input : jsstring.

Lemma on_token_order (t : jsstring) (base : list jsstring)
    (ls : loop_state) (w : World) :
  order_inv base ls w ->
  order_inv base (fst (on_token cfg input t ls w))
                 (snd (on_token cfg input t ls w)) /\
  buffer (fst (on_token cfg input t ls w)) =
    buffer ls ++
    [if (currentToken ls <? 0) && startsWith_space t && endsWith_space input
     then slice1 t else t].
Proof.
  intros (Ct & Ci & Cb & Sw). unfold on_token.
  set (t' := if (currentToken ls <? 0) && startsWith_space t
                && endsWith_space input then slice1 t else t).
  set (n := Z.of_nat (length (buffer ls))) in *.
  assert (Hlen : Z.of_nat (length (buffer ls ++ [t'])) = n + 1).
  { rewrite length_app. simpl. lia. }
  assert (Hcb : (if matches_boundaries t' then n + 1
                 else currentBoundary ls) = -1 \/
                1 <= (if matches_boundaries t' then n + 1
                      else currentBoundary ls) <= n + 1).
  { destruct (matches_boundaries t'); [right; lia|].
    destruct Cb as [Cb|Cb]; [left; exact Cb | right; lia]. }
  assert (Hk : (Z.to_nat (currentIndex ls) <= length (buffer ls))%nat)
    by (subst n; lia).
  destruct (currentToken ls + 1 >=? bufferAhead cfg) eqn:G;
    [|destruct (currentToken ls + 1 =? bufferAhead cfg) eqn:E; [lia|]].
  - simpl fst; simpl snd. split; [|reflexivity].
    unfold order_inv. simpl buffer. simpl currentToken. simpl currentIndex.
    simpl currentBoundary.
    rewrite Hlen, writeToken_effects, sink_writes_app.
    set (w1 := if (currentToken ls + 1 =? bufferAhead cfg)
                  && negb (append cfg) && isTTY cfg
               then stopIndicating w else w).
    assert (S1 : silent w w1).
    { subst w1.
      destruct ((currentToken ls + 1 =? bufferAhead cfg)
                && negb (append cfg) && isTTY cfg);
        [apply stopIndicating_silent | apply silent_refl]. }
    rewrite (silent_sink_writes _ _ S1), Sw.
    repeat split; try lia; try exact Hcb.
    unfold js_index. destruct (currentIndex ls <? 0) eqn:L; [lia|].
    destruct (nth_error_snoc_lt (buffer ls) t' _ Hk) as (y & Hy).
    rewrite Hy. simpl.
    replace (Z.to_nat (currentIndex ls + 1))
      with (S (Z.to_nat (currentIndex ls))) by lia.
    rewrite (firstn_snoc_nth _ _ _ Hy), firstn_app_le by exact Hk.
    rewrite <- app_assoc. reflexivity.
  - simpl. split; [|reflexivity].
    unfold order_inv. simpl buffer. simpl currentToken. simpl currentIndex.
    simpl currentBoundary.
    rewrite Hlen. repeat split; try lia; try exact Hcb.
    rewrite firstn_app_le by exact Hk. exact Sw.
Qed.

Lemma receive_order (base : list jsstring) (evs : list stream_event)
    (ls : loop_state) (w : World) :
  order_inv base ls w ->
  match receive cfg input evs ls w with
  | Completed ls' w' =>
      order_inv base ls' w' /\
      buffer ls' = buffer ls ++ buffered input ls evs
  | Returned w' =>
      exists m, sink_writes (effects w') =
                base ++ firstn m (buffer ls ++ buffered input ls evs)
  end.
Proof.
  revert ls w. unfold buffered.
  induction evs as [|[t|a] evs IH]; intros ls w I; simpl.
  - split; [exact I|].
    destruct (currentToken ls <? 0); simpl; symmetry; apply app_nil_r.
  - destruct (killed (st w)).
    + destruct I as (_ & Ci & _ & Sw).
      exists (Z.to_nat (currentIndex ls)).
      rewrite firstn_app_le by lia. exact Sw.
    + destruct (on_token_order t base ls w I) as (I' & Hb).
      destruct (on_token cfg input t ls w) as [ls1 w1]. simpl in I', Hb.
      specialize (IH ls1 w1 I').
      assert (E : buffer ls1 ++
                  (if currentToken ls1 <? 0
                   then seam_fix input (stream_tokens evs)
                   else stream_tokens evs) =
                  buffer ls ++
                  (if currentToken ls <? 0
                   then seam_fix input (t :: stream_tokens evs)
                   else t :: stream_tokens evs)).
      { destruct I' as (Ct1 & _).
        destruct (currentToken ls1 <? 0) eqn:L1.
        { rewrite Hb, length_app in Ct1. simpl in Ct1. lia. }
        rewrite Hb, <- app_assoc. simpl.
        destruct (currentToken ls <? 0); reflexivity. }
      rewrite E in IH. exact IH.
  - apply IH. destruct I as (Ct & Ci & Cb & Sw).
    unfold order_inv. rewrite handle_async_sink_writes. auto.
Qed.

End Order.

Lemma order_inv_init (w : World) :
  order_inv (sink_writes (effects w)) loop_init w.
Proof.
  unfold order_inv. simpl.
  split; [reflexivity | split; [lia | split; [left; reflexivity|]]].
  symmetry. apply app_nil_r.
Qed.

Lemma drop_newline_tokens_suffix (r : list jsstring) :
  exists j, (j <= length r)%nat /\ drop_newline_tokens r = skipn j r.
Proof.
  induction r as [|t r (j & Hj & E)]; simpl.
  - exists 0%nat. auto.
  - destruct (matches_newline t).
    + exists (S j). split; [lia | exact E].
    + exists 0%nat. split; [lia | reflexivity].
Qed.

(** The [while] loop of the drain step only pops: what it leaves is a
    prefix of what it got. *)
Lemma pop_newline_tokens_prefix (b : list jsstring) :
  exists j, pop_newline_tokens b = firstn j b.
Proof.
  unfold pop_newline_tokens.
  destruct (drop_newline_tokens_suffix (rev b)) as (j & Hj & E).
  rewrite length_rev in Hj.
  exists (length b - j)%nat. rewrite E, firstn_skipn_rev.
  do 2 f_equal. lia.
Qed.

Lemma js_slice_from (l : list jsstring) (a b : Z) :
  0 <= a <= Z.of_nat (length l) ->
  exists j, js_slice l a b = firstn j (skipn (Z.to_nat a) l).
Proof.
  intros H. unfold js_slice.
  destruct (a <? 0) eqn:L; [lia|].
  replace (Z.min a (Z.of_nat (length l))) with a by lia.
  eexists. reflexivity.
Qed.

(** Under the invariant, the drain step keeps a run of tokens that starts
    at [currentIndex]. *)
Lemma drain_from_index (base : list jsstring) (ls : loop_state) (w : World) :
  order_inv base ls w ->
  exists j, drain ls = firstn j (skipn (Z.to_nat (currentIndex ls)) (buffer ls)).
Proof.
  intros (_ & Ci & Cb & _). unfold drain.
  assert (T : truthy (currentBoundary ls) = true).
  { unfold truthy. apply negb_true_iff, Z.eqb_neq. lia. }
  rewrite T.
  destruct (js_slice_from (buffer ls) (currentIndex ls) (currentBoundary ls) Ci)
    as (j1 & E1).
  rewrite E1.
  destruct (pop_newline_tokens_prefix
              (firstn j1 (skipn (Z.to_nat (currentIndex ls)) (buffer ls))))
    as (j2 & E2).
  rewrite E2, firstn_firstn. eexists. reflexivity.
Qed.

(** Whatever happens during the delays, the paced loop writes a prefix of
    the trimmed buffer. *)
Lemma paced_prefix (cfg : config) (buf : list jsstring)
    (ws : list (list async_event)) (w : World) :
  exists j, sink_writes (effects (paced cfg buf ws w)) =
            sink_writes (effects w) ++ firstn j buf.
Proof.
  revert ws w. induction buf as [|t buf IH]; intros ws w; simpl.
  - exists 0%nat. symmetry. apply app_nil_r.
  - destruct (killed (st w)).
    + exists 0%nat. symmetry. apply app_nil_r.
    + destruct (IH (tl ws) (writeToken cfg t (handle_asyncs (hd [] ws) w)))
        as (j & E).
      exists (S j). rewrite E, writeToken_effects, sink_writes_app,
        handle_asyncs_sink_writes.
      simpl. rewrite <- app_assoc. reflexivity.
Qed.

(** X1. Whatever the configuration, the events of the stream and of the
    delays (cancellation included), a run writes to the sink the echo of
    the trimmed input (outside append mode), then the first [m] buffered
    tokens of the stream for some [m], in the order of the stream and each
    once, then the final newline. *)
Theorem tokens_reach_sink_in_stream_order :
  forall (cfg : config) (input : jsstring) (sched : schedule) (w : World),
  exists m,
    sink_writes (effects (processStream cfg input sched w)) =
    sink_writes (effects w) ++
    (if append cfg then [] else [replace_trailing_newline input]) ++
    firstn m (seam_fix (replace_trailing_newline input)
                       (stream_tokens (stream sched))) ++ [nl].
Proof.
  intros cfg input sched w.
  set (input' := replace_trailing_newline input).
  set (w1 := begin_stream cfg input w).
  set (ts := seam_fix input' (stream_tokens (stream sched))).
  assert (G : exists m,
             sink_writes (effects (stream_and_drain cfg input' sched w1)) =
             sink_writes (effects w1) ++ firstn m ts).
  { unfold stream_and_drain.
    pose proof (receive_order cfg input' _ (stream sched) loop_init w1
                  (order_inv_init w1)) as R.
    destruct (receive cfg input' (stream sched) loop_init w1) as [ls w2|w2].
    - destruct R as (I & Hb). simpl in Hb. fold ts in Hb.
      destruct (drain_from_index _ _ _ I) as (j & Ed).
      destruct (paced_prefix cfg (drain ls) (waits sched) w2) as (j2 & Ep).
      destruct I as (_ & Ci & _ & Sw).
      rewrite Ep, Sw, Ed, Hb, firstn_firstn, <- app_assoc, firstn_firstn_skipn.
      eexists. reflexivity.
    - exact R. }
  destruct G as (m & G). exists m.
  rewrite processStream_sink. fold input' w1. rewrite G.
  unfold w1. rewrite begin_stream_sink. fold input'.
  rewrite <- !app_assoc. reflexivity.
Qed.

(** ** The recorded boundary *)

Lemma on_token_fst (cfg : config) (input t : jsstring)
    (ls : loop_state) (w : World) :
  let t' := if (currentToken ls <? 0) && startsWith_space t
               && endsWith_space input then slice1 t else t in
  buffer (fst (on_token cfg input t ls w)) = buffer ls ++ [t'] /\
  currentToken (fst (on_token cfg input t ls w)) = currentToken ls + 1 /\
  currentBoundary (fst (on_token cfg input t ls w)) =
    (if matches_boundaries t' then Z.of_nat (length (buffer ls)) + 1
     else currentBoundary ls).
Proof.
  unfold on_token.
  destruct (currentToken ls + 1 >=? bufferAhead cfg); simpl;
    rewrite length_app; simpl;
    replace (Z.of_nat (length (buffer ls) + 1))
      with (Z.of_nat (length (buffer ls)) + 1) by lia;
    auto.
Qed.

(** At the end of the stream [currentBoundary] is what a left-to-right
    scan of the buffered tokens gives. *)
Lemma receive_boundary_scan (cfg : config) (input : jsstring)
    (evs : list stream_event) (ls ls' : loop_state) (w w' : World) :
  currentToken ls = Z.of_nat (length (buffer ls)) - 1 ->
  receive cfg input evs ls w = Completed ls' w' ->
  currentBoundary ls' =
    scan_boundary (buffered input ls evs)
                  (Z.of_nat (length (buffer ls))) (currentBoundary ls).
Proof.
  revert ls w. unfold buffered.
  induction evs as [|[t|a] evs IH]; intros ls w Ct R; simpl in *.
  - injection R as <- _. destruct (currentToken ls <? 0); reflexivity.
  - destruct (killed (st w)); [discriminate|].
    destruct (on_token_fst cfg input t ls w) as (Hb & Hc & Hcb).
    destruct (on_token cfg input t ls w) as [ls1 w1]. simpl in Hb, Hc, Hcb.
    assert (Ct1 : currentToken ls1 = Z.of_nat (length (buffer ls1)) - 1).
    { rewrite Hc, Hb, length_app. simpl. lia. }
    rewrite (IH ls1 w1 Ct1 R).
    destruct (currentToken ls1 <? 0) eqn:L1; [lia|].
    rewrite Hcb, Hb, length_app. simpl length.
    replace (Z.of_nat (length (buffer ls) + 1))
      with (Z.of_nat (length (buffer ls)) + 1) by lia.
    destruct (currentToken ls <? 0); simpl; reflexivity.
  - eapply IH; eassumption.
Qed.

Lemma scan_boundary_app (a b : list jsstring) (pos cb : Z) :
  scan_boundary (a ++ b) pos cb =
  scan_boundary b (pos + Z.of_nat (length a)) (scan_boundary a pos cb).
Proof.
  revert pos cb. induction a as [|t a IH]; intros pos cb; simpl.
  - f_equal. lia.
  - rewrite IH. f_equal. lia.
Qed.

Lemma scan_boundary_free (f : list jsstring) (pos cb : Z) :
  forallb (fun t => negb (matches_boundaries t)) f = true ->
  scan_boundary f pos cb = cb.
Proof.
  revert pos. induction f as [|t f IH]; intros pos H; simpl in *.
  - reflexivity.
  - apply andb_true_iff in H. destruct H as (Ht & Hf).
    apply negb_true_iff in Ht. rewrite Ht. apply IH. exact Hf.
Qed.

(** The scan stops after the last boundary token. *)
Lemma scan_boundary_last (a f : list jsstring) (b : jsstring) :
  matches_boundaries b = true ->
  forallb (fun t => negb (matches_boundaries t)) f = true ->
  scan_boundary (a ++ b :: f) 0 (-1) = Z.of_nat (length a) + 1.
Proof.
  intros Hb Hf. rewrite scan_boundary_app. simpl. rewrite Hb.
  rewrite scan_boundary_free by exact Hf. lia.
Qed.

Lemma scan_boundary_range (ts : list jsstring) (pos cb : Z) :
  0 <= pos -> cb = -1 \/ 1 <= cb <= pos ->
  scan_boundary ts pos cb = -1 \/
  1 <= scan_boundary ts pos cb <= pos + Z.of_nat (length ts).
Proof.
  revert pos cb. induction ts as [|t ts IH]; intros pos cb Hp Hc; simpl.
  - destruct Hc; [left; assumption | right; lia].
  - destruct (IH (pos + 1) (if matches_boundaries t then pos + 1 else cb))
      as [E|E]; [lia | | left; exact E | right; lia].
    destruct (matches_boundaries t); [right; lia|].
    destruct Hc; [left; assumption | right; lia].
Qed.

(** ** The drain step on lists *)

Lemma pop_newline_tokens_nil : pop_newline_tokens [] = [].
Proof. reflexivity. Qed.

Lemma pop_newline_tokens_snoc (l : list jsstring) (b : jsstring) :
  matches_newline b = false -> pop_newline_tokens (l ++ [b]) = l ++ [b].
Proof.
  intros H. unfold pop_newline_tokens. rewrite rev_app_distr. simpl.
  rewrite H. simpl. rewrite rev_involutive. reflexivity.
Qed.

Lemma pop_newline_tokens_last (l : list jsstring) :
  matches_newline (last (pop_newline_tokens l) []) = false.
Proof.
  unfold pop_newline_tokens.
  induction (rev l) as [|t r IH]; simpl; [reflexivity|].
  destruct (matches_newline t) eqn:E; [exact IH|].
  simpl. rewrite last_last. exact E.
Qed.

(** ** A run that nobody cancels *)

(** Without cancellation and for a depth [d >= 0], the sink receives the
    echo, the first [n - d] of the [n] buffered tokens from the live loop,
    what the drain step keeps of the rest, and the final newline. *)
Lemma natural_run (cfg : config) (input : jsstring)
    (sched : schedule) (w : World) :
  0 <= bufferAhead cfg ->
  killed (st w) = false ->
  no_cancel (stream sched) = true ->
  no_cancel_waits (waits sched) = true ->
  let ts := seam_fix (replace_trailing_newline input)
                     (stream_tokens (stream sched)) in
  let n := Z.of_nat (length ts) in
  sink_writes (effects (processStream cfg input sched w)) =
  sink_writes (effects w) ++
  (if append cfg then [] else [replace_trailing_newline input]) ++
  firstn (Z.to_nat (n - bufferAhead cfg)) ts ++
  pop_newline_tokens
    (js_slice ts (Z.max 0 (n - bufferAhead cfg)) (scan_boundary ts 0 (-1))) ++
  [nl].
Proof.
  intros Hd K N Nw ts n.
  set (input' := replace_trailing_newline input) in *.
  set (w1 := begin_stream cfg input w).
  assert (K1 : killed (st w1) = false)
    by (unfold w1; rewrite begin_stream_killed; exact K).
  destruct (receive_live cfg input' (sink_writes (effects w1)) (stream sched)
              loop_init w1 Hd N (live_inv_init _ w1 Hd K1))
    as (ls & w2 & R & (K2 & Ct & Ci & Sw) & Hb).
  simpl in Hb. fold ts in Hb.
  pose proof (receive_boundary_scan cfg input' (stream sched) loop_init ls w1 w2
                (eq_refl : currentToken loop_init = -1) R) as Cb.
  unfold buffered in Cb. simpl in Cb. fold ts in Cb.
  assert (T : truthy (currentBoundary ls) = true).
  { unfold truthy. apply negb_true_iff, Z.eqb_neq. rewrite Cb.
    destruct (scan_boundary_range ts 0 (-1)); [lia | left; reflexivity | lia | lia]. }
  assert (Hdrain : drain ls =
            pop_newline_tokens
              (js_slice ts (Z.max 0 (n - bufferAhead cfg))
                        (scan_boundary ts 0 (-1)))).
  { unfold drain. rewrite T, Ci, Cb, Hb. reflexivity. }
  rewrite processStream_sink. fold input' w1.
  unfold stream_and_drain. rewrite R, (paced_no_cancel _ _ _ _ Nw K2), Sw.
  rewrite Hdrain, Hb. fold n.
  unfold w1. rewrite begin_stream_sink. fold input'.
  rewrite <- !app_assoc. reflexivity.
Qed.

Lemma firstn_app_exact {A : Type} (l r : list A) : firstn (length l) (l ++ r) = l.
Proof.
  rewrite firstn_app, firstn_all, Nat.sub_diag. simpl. apply app_nil_r.
Qed.

(** The part of the output that follows the echo when the buffered
    tokens are [a ++ b :: f], [b] is the last boundary token and holds no
    line feed: everything through [b], and of the fragment [f] only what
    the lookahead of [d] tokens could not hold back. *)
Lemma trim_at_last_boundary (d : Z) (a f : list jsstring) (b : jsstring) :
  0 <= d ->
  matches_newline b = false ->
  let ts := a ++ b :: f in
  let n := Z.of_nat (length ts) in
  firstn (Z.to_nat (n - d)) ts ++
  pop_newline_tokens
    (js_slice ts (Z.max 0 (n - d)) (Z.of_nat (length a) + 1)) =
  a ++ [b] ++ firstn (Z.to_nat (Z.of_nat (length f) - d)) f.
Proof.
  intros Hd Hb ts n.
  assert (Hn : n = Z.of_nat (length a) + 1 + Z.of_nat (length f)).
  { subst n ts. rewrite length_app. simpl. lia. }
  assert (Ets : ts = (a ++ [b]) ++ f)
    by (subst ts; rewrite <- app_assoc; reflexivity).
  assert (Lab : length (a ++ [b]) = S (length a))
    by (rewrite length_app; simpl; lia).
  unfold js_slice. fold n.
  destruct (Z.max 0 (n - d) <? 0) eqn:L1; [lia|].
  destruct (Z.of_nat (length a) + 1 <? 0) eqn:L2; [lia|].
  replace (Z.min (Z.of_nat (length a) + 1) n) with (Z.of_nat (length a) + 1)
    by lia.
  replace (Z.min (Z.max 0 (n - d)) n) with (Z.max 0 (n - d)) by lia.
  destruct (Z_le_gt_dec (Z.of_nat (length f)) d) as [Hle|Hgt].
  - (* the fragment fits in the lookahead: it is dropped whole *)
    replace (Z.to_nat (Z.of_nat (length f) - d)) with 0%nat by lia.
    simpl firstn. rewrite app_nil_r.
    set (k := Z.to_nat (n - d)).
    replace (Z.to_nat (Z.max 0 (n - d))) with k by (subst k; lia).
    replace (Z.to_nat (Z.of_nat (length a) + 1 - Z.max 0 (n - d)))
      with (S (length a) - k)%nat by (subst k; lia).
    assert (Hk : (k <= S (length a))%nat) by (subst k; lia).
    rewrite firstn_skipn_comm.
    replace (k + (S (length a) - k))%nat with (length (a ++ [b])) by lia.
    rewrite Ets, firstn_app_exact, firstn_app_le by lia.
    assert (P : pop_newline_tokens (skipn k (a ++ [b])) = skipn k (a ++ [b])).
    { destruct (Nat.eq_dec k (S (length a))) as [->|Hne].
      - rewrite skipn_all2 by lia. reflexivity.
      - rewrite skipn_app.
        replace (k - length a)%nat with 0%nat by lia.
        simpl skipn. apply pop_newline_tokens_snoc. exact Hb. }
    rewrite P. apply firstn_skipn.
  - (* the fragment is longer than the lookahead: nothing is left to trim *)
    replace (Z.to_nat (Z.of_nat (length a) + 1 - Z.max 0 (n - d)))
      with 0%nat by lia.
    simpl firstn. rewrite pop_newline_tokens_nil, app_nil_r.
    replace (Z.to_nat (n - d))
      with (length (a ++ [b]) + Z.to_nat (Z.of_nat (length f) - d))%nat by lia.
    rewrite Ets, firstn_app_2, <- app_assoc. reflexivity.
Qed.

(** X2. A run that nobody cancels, with a depth [d >= 0], whose buffered
    tokens are [a ++ b :: f] where [b] is the last token with a boundary
    character and holds no line feed: the sink receives the echo, every
    token through [b], then only the first [length f - d] tokens of the
    trailing fragment [f] (none when the fragment fits in the lookahead),
    then the final newline. *)
Theorem output_ends_at_last_boundary :
  forall (cfg : config) (input : jsstring) (sched : schedule) (w : World)
         (a f : list jsstring) (b : jsstring),
    0 <= bufferAhead cfg ->
    killed (st w) = false ->
    no_cancel (stream sched) = true ->
    no_cancel_waits (waits sched) = true ->
    seam_fix (replace_trailing_newline input) (stream_tokens (stream sched)) =
      a ++ b :: f ->
    matches_boundaries b = true ->
    matches_newline b = false ->
    forallb (fun t => negb (matches_boundaries t)) f = true ->
    sink_writes (effects (processStream cfg input sched w)) =
    sink_writes (effects w) ++
    (if append cfg then [] else [replace_trailing_newline input]) ++
    a ++ [b] ++
    firstn (Z.to_nat (Z.of_nat (length f) - bufferAhead cfg)) f ++ [nl].
Proof.
  intros cfg input sched w a f b Hd K N Nw Ets Hb Hnl Hf.
  rewrite (natural_run cfg input sched w Hd K N Nw). cbv zeta.
  rewrite Ets, (scan_boundary_last a f b Hb Hf).
  pose proof (trim_at_last_boundary (bufferAhead cfg) a f b Hd Hnl) as T.
  cbv zeta in T.
  rewrite !app_assoc. rewrite <- (app_assoc _ (firstn _ (a ++ b :: f))).
  rewrite T. rewrite <- !app_assoc. reflexivity.
Qed.

Lemma output_ends_at_last_boundary_witness :
  sink_writes
    (effects (main (mkConfig false false 3) [] (lit "Once")
                (mkSchedule [Token (lit " upon"); Token (lit "."); Token (lit " A");
                             Token (lit " time")] []))) =
  [lit "Once"; lit " upon"; lit "."; nl].
Proof.
  apply (output_ends_at_last_boundary (mkConfig false false 3) (lit "Once")
           (mkSchedule [Token (lit " upon"); Token (lit "."); Token (lit " A");
                        Token (lit " time")] [])
           (startIndicating (blockInput (initial_world [])))
           [lit " upon"] [lit " A"; lit " time"] (lit "."));
    try reflexivity.
  simpl. lia.
Defined.

Lemma js_slice_from_end {A : Type} (l : list A) (stop : Z) :
  js_slice l (Z.of_nat (length l)) stop = [].
Proof.
  unfold js_slice.
  destruct (Z.of_nat (length l) <? 0) eqn:L; [apply Z.ltb_lt in L; lia|].
  replace (Z.min (Z.of_nat (length l)) (Z.of_nat (length l)))
    with (Z.of_nat (length l)) by lia.
  destruct (stop <? 0) eqn:S;
    [apply Z.ltb_lt in S | apply Z.ltb_ge in S];
    match goal with
    | |- firstn (Z.to_nat ?x) _ = _ => replace (Z.to_nat x) with 0%nat by lia
    end; reflexivity.
Qed.

(** X3. With a lookahead depth of zero nothing is held back and nothing
    is trimmed: a run that nobody cancels writes the echo, every token of
    the stream and the final newline, whatever boundaries the tokens
    hold. *)
Theorem depth_zero_emits_every_token :
  forall (cfg : config) (input : jsstring) (sched : schedule) (w : World),
    bufferAhead cfg = 0 ->
    killed (st w) = false ->
    no_cancel (stream sched) = true ->
    no_cancel_waits (waits sched) = true ->
    sink_writes (effects (processStream cfg input sched w)) =
    sink_writes (effects w) ++
    (if append cfg then [] else [replace_trailing_newline input]) ++
    seam_fix (replace_trailing_newline input) (stream_tokens (stream sched)) ++
    [nl].
Proof.
  intros cfg input sched w Hd K N Nw.
  rewrite (natural_run cfg input sched w) by (try assumption; lia).
  cbv zeta. rewrite Hd, Z.sub_0_r, Nat2Z.id, firstn_all.
  rewrite Z.max_r by lia.
  rewrite js_slice_from_end, pop_newline_tokens_nil. reflexivity.
Qed.

Lemma depth_zero_emits_every_token_witness :
  sink_writes
    (effects (main (mkConfig false false 0) [] []
                (mkSchedule [Token (lit "One"); Token (lit "."); Token (lit " Two")]
                            []))) =
  [[]; lit "One"; lit "."; lit " Two"; nl].
Proof.
  apply (depth_zero_emits_every_token (mkConfig false false 0) []
           (mkSchedule [Token (lit "One"); Token (lit "."); Token (lit " Two")] [])
           (startIndicating (blockInput (initial_world []))));
    reflexivity.
Defined.

(** X4. When the token loop runs to the end of the stream, the tokens
    that the drain step hands to the paced loop never end with a token
    that holds a line feed. *)
Theorem drained_tail_has_no_trailing_newline_token :
  forall (cfg : config) (input : jsstring) (evs : list stream_event)
         (ls : loop_state) (w w' : World),
    receive cfg input evs loop_init w = Completed ls w' ->
    matches_newline (last (drain ls) []) = false.
Proof.
  intros cfg input evs ls w w' R.
  pose proof (receive_order cfg input _ evs loop_init w (order_inv_init w)) as O.
  rewrite R in O. destruct O as ((_ & _ & Cb & _) & _).
  unfold drain.
  assert (T : truthy (currentBoundary ls) = true).
  { unfold truthy. apply negb_true_iff, Z.eqb_neq. lia. }
  rewrite T. apply pop_newline_tokens_last.
Qed.

Lemma drained_tail_has_no_trailing_newline_token_witness :
  exists ls w',
    receive (mkConfig false false 5) []
            [Token (lit "Done"); Token (lit "."); Token nl; Token (nl ++ nl)]
            loop_init (initial_world []) = Completed ls w' /\
    drain ls = [lit "Done"; lit "."] /\
    matches_newline (last (drain ls) []) = false.
Proof.
  destruct (receive (mkConfig false false 5) []
              [Token (lit "Done"); Token (lit "."); Token nl; Token (nl ++ nl)]
              loop_init (initial_world [])) as [ls w'|w'] eqn:R.
  - exists ls, w'. split; [reflexivity|]. split.
    + vm_compute in R. injection R as <- _. reflexivity.
    + exact (drained_tail_has_no_trailing_newline_token _ _ _ _ _ _ R).
  - vm_compute in R. discriminate.
Defined.

(** ** Cancellation *)

(** X5. Ctrl-C during the token loop, for a depth [d >= 0]: the sink holds
    the echo, the tokens that the live loop had written when the key
    arrived (the first [k - d] of the [k] tokens received so far) and the
    final newline. The [d] tokens held back and everything that the
    stream delivers afterwards are never written. *)
Theorem cancel_discards_held_back_tokens :
  forall (cfg : config) (input : jsstring) (pre post : list stream_event)
         (ws : list (list async_event)) (w : World),
    0 <= bufferAhead cfg ->
    killed (st w) = false ->
    no_cancel pre = true ->
    sink_writes
      (effects (processStream cfg input
                  (mkSchedule (pre ++ Async (KeyData CTRL_C) :: post) ws) w)) =
    sink_writes (effects w) ++
    (if append cfg then [] else [replace_trailing_newline input]) ++
    firstn (Z.to_nat (Z.of_nat (count_tokens pre) - bufferAhead cfg))
           (seam_fix (replace_trailing_newline input) (stream_tokens pre)) ++
    [nl].
Proof.
  intros cfg input pre post ws w Hd K N.
  set (input' := replace_trailing_newline input).
  set (w1 := begin_stream cfg input w).
  set (sched := mkSchedule (pre ++ Async (KeyData CTRL_C) :: post) ws).
  assert (K1 : killed (st w1) = false)
    by (unfold w1; rewrite begin_stream_killed; exact K).
  assert (B1 : busy (st w1) = true) by apply begin_stream_busy.
  destruct (receive_live cfg input' (sink_writes (effects w1)) pre
              loop_init w1 Hd N (live_inv_init _ w1 Hd K1))
    as (ls & w2 & R & (K2 & Ct & Ci & Sw) & Hb).
  simpl in Hb.
  assert (Hn : length (buffer ls) = count_tokens pre).
  { rewrite Hb, seam_fix_length. apply stream_tokens_length. }
  assert (B2 : busy (st w2) = true).
  { pose proof (receive_quiet cfg input' pre loop_init w1) as (B & _).
    rewrite R in B. unfold world_of in B. rewrite B. exact B1. }
  assert (K3 : killed (st (on_data CTRL_C w2)) = true)
    by (apply on_data_ctrl_c; exact B2).
  assert (E : receive cfg input' (stream sched) loop_init w1 =
              receive cfg input' post ls (on_data CTRL_C w2)).
  { simpl stream. rewrite receive_app, R. reflexivity. }
  assert (Kf : killed (st (world_of (receive cfg input' (stream sched)
                                       loop_init w1))) = true).
  { rewrite E.
    destruct (receive_quiet cfg input' post ls (on_data CTRL_C w2))
      as (_ & Km & _). auto. }
  rewrite processStream_sink. fold input' w1.
  rewrite (stream_and_drain_killed _ _ sched _ Kf), E.
  rewrite (receive_killed _ _ _ _ _ K3), on_data_effects, Sw, Hn, Hb.
  unfold w1. rewrite begin_stream_sink. fold input'.
  rewrite <- !app_assoc. reflexivity.
Qed.

Lemma cancel_discards_held_back_tokens_witness :
  sink_writes
    (effects (main (mkConfig false false 1) [] (lit "Go")
                (mkSchedule ([Token (lit " on"); Token (lit " and")] ++
                             Async (KeyData CTRL_C) :: [Token (lit " on.")])
                            []))) =
  [lit "Go"; lit " on"; nl].
Proof.
  apply (cancel_discards_held_back_tokens (mkConfig false false 1) (lit "Go")
           [Token (lit " on"); Token (lit " and")] [Token (lit " on.")] []
           (startIndicating (blockInput (initial_world []))));
    [simpl; lia | reflexivity | reflexivity].
Defined.

Lemma handle_asyncs_cancel (l : list async_event) (w : World) :
  busy (st w) = true -> In (KeyData CTRL_C) l ->
  killed (st (handle_asyncs l w)) = true.
Proof.
  revert w. induction l as [|a l IH]; intros w B H; simpl in *; [tauto|].
  destruct (handle_async_quiet a w) as (Ba & _).
  destruct H as [->|H].
  - destruct (handle_asyncs_quiet l (handle_async (KeyData CTRL_C) w))
      as (_ & Km & _).
    apply Km. simpl. apply on_data_ctrl_c. exact B.
  - apply IH; [congruence | exact H].
Qed.

(** X6. Ctrl-C during a delay of the paced loop does not stop the token of
    that delay: when the key arrives during delay number [j] (counted from
    zero, with no Ctrl-C before), the loop writes the tokens [0..j] of the
    trimmed buffer and none after. *)
Theorem cancel_during_delay_takes_effect_after_the_token :
  forall (cfg : config) (buf : list jsstring)
         (before : list (list async_event)) (l : list async_event)
         (after : list (list async_event)) (w : World),
    busy (st w) = true ->
    killed (st w) = false ->
    no_cancel_waits before = true ->
    In (KeyData CTRL_C) l ->
    sink_writes (effects (paced cfg buf (before ++ l :: after) w)) =
    sink_writes (effects w) ++ firstn (S (length before)) buf.
Proof.
  intros cfg buf before l after. revert buf.
  induction before as [|l0 before IH]; intros buf w B K N H.
  - destruct buf as [|t buf]; simpl; [symmetry; apply app_nil_r|].
    rewrite K. rewrite paced_killed.
    + rewrite writeToken_effects, sink_writes_app, handle_asyncs_sink_writes.
      destruct buf; reflexivity.
    + rewrite writeToken_st. apply handle_asyncs_cancel; assumption.
  - destruct buf as [|t buf]; [simpl; symmetry; apply app_nil_r|].
    simpl in N. apply andb_true_iff in N. destruct N as (N0 & N).
    simpl paced. rewrite K. simpl hd. simpl tl.
    rewrite IH; try assumption.
    + rewrite writeToken_effects, sink_writes_app, handle_asyncs_sink_writes.
      simpl. rewrite <- app_assoc. reflexivity.
    + rewrite writeToken_st.
      destruct (handle_asyncs_quiet l0 w) as (Bq & _). congruence.
    + rewrite writeToken_st. apply handle_asyncs_no_cancel; assumption.
Qed.

Lemma cancel_during_delay_takes_effect_after_the_token_witness :
  sink_writes
    (effects (paced (mkConfig false false 3)
                [lit "a"; lit "b"; lit "c"; lit "d"]
                ([[Tick]] ++ [KeyData CTRL_C] :: [])
                (with_st (set_busy true) (initial_world [])))) =
  [lit "a"; lit "b"].
Proof.
  apply (cancel_during_delay_takes_effect_after_the_token
           (mkConfig false false 3) [lit "a"; lit "b"; lit "c"; lit "d"]
           [[Tick]] [KeyData CTRL_C] []
           (with_st (set_busy true) (initial_world [])));
    [reflexivity | reflexivity | reflexivity | left; reflexivity].
Defined.

(** ** The terminal line and the timer handle *)

Lemma sink_text_app (a b : list effect) :
  sink_text (a ++ b) = sink_text a ++ sink_text b.
Proof. unfold sink_text. rewrite sink_writes_app. apply concat_app. Qed.

Section TtySync.

Variable cfg : config.

Lemma tty_sync_refl (w : World) : tty_sync cfg w w.
Proof.
  unfold tty_sync. split; [reflexivity | split; [auto|]].
  exists []. rewrite !app_nil_r.
  destruct (negb (append cfg) && isTTY cfg); rewrite ?app_nil_r; auto.
Qed.

Lemma tty_sync_trans (a b c : World) :
  tty_sync cfg a b -> tty_sync cfg b c -> tty_sync cfg a c.
Proof.
  intros (F1 & C1 & e1 & E1 & L1) (F2 & C2 & e2 & E2 & L2).
  unfold tty_sync. split; [congruence | split; [auto|]].
  exists (e1 ++ e2). rewrite E2, E1, L2, L1, <- !app_assoc.
  split; [reflexivity|].
  destruct (negb (append cfg) && isTTY cfg);
    [rewrite sink_text_app | rewrite !app_nil_r]; reflexivity.
Qed.

(** An operation that leaves the line, the cursor and the timer handle
    alone and logs effects that are not writes to the sink. *)
Lemma tty_sync_frame (w w' : World) (es : list effect) :
  flashLoop (st w') = flashLoop (st w) ->
  rl_line w' = rl_line w -> rl_cursor w' = rl_cursor w ->
  effects w' = effects w ++ es -> sink_writes es = [] ->
  tty_sync cfg w w'.
Proof.
  intros F L C E S. unfold tty_sync.
  split; [exact F | split; [rewrite L, C; auto|]].
  exists es. split; [exact E|].
  unfold sink_text. rewrite S, L. simpl.
  destruct (negb (append cfg) && isTTY cfg); rewrite app_nil_r; reflexivity.
Qed.

Lemma stderr_write_tty_sync (s : jsstring) (w : World) :
  tty_sync cfg w (stderr_write s w).
Proof.
  apply (tty_sync_frame _ _ [StderrWrite s]);
    unfold stderr_write;
    destruct (str_eqb s HIDE_CURSOR), (str_eqb s SHOW_CURSOR); reflexivity.
Qed.

Lemma log_tty_sync (e : effect) (w : World) :
  sink_writes [e] = [] -> tty_sync cfg w (log e w).
Proof. intros S. apply (tty_sync_frame _ _ [e]); auto. Qed.

Lemma writeToken_tty_sync (t : jsstring) (w : World) :
  tty_sync cfg w (writeToken cfg t w).
Proof.
  unfold tty_sync, writeToken, sink_text.
  destruct (append cfg), (isTTY cfg); simpl;
    (split; [reflexivity | split; [auto|]]);
    eexists; (split; [reflexivity|]); simpl; rewrite ?app_nil_r; reflexivity.
Qed.

Lemma stopIndicating_tty_sync (w : World) : tty_sync cfg w (stopIndicating w).
Proof.
  apply (tty_sync_frame _ _ [ClearInterval (flashLoop (st w))]);
    [ rewrite stopIndicating_st; reflexivity
    | unfold stopIndicating; simpl;
      destruct (flashLoop (st w)) as [[]|]; reflexivity
    | unfold stopIndicating; simpl;
      destruct (flashLoop (st w)) as [[]|]; reflexivity
    | apply stopIndicating_effects
    | reflexivity ].
Qed.

Lemma restoreInput_tty_sync (w : World) : tty_sync cfg w (restoreInput w).
Proof.
  unfold restoreInput.
  eapply tty_sync_trans; [|apply stderr_write_tty_sync].
  apply (tty_sync_frame _ _ []); try reflexivity.
  symmetry. apply app_nil_r.
Qed.

Lemma on_data_tty_sync (key : jsstring) (w : World) :
  tty_sync cfg w (on_data key w).
Proof.
  apply (tty_sync_frame _ _ []); unfold on_data;
    destruct (busy (st w)), (str_eqb key CTRL_C); simpl;
    rewrite ?app_nil_r; reflexivity.
Qed.

Lemma flash_callback_tty_sync (w : World) : tty_sync cfg w (flash_callback w).
Proof.
  unfold flash_callback. destruct (flashOn (st w));
    (eapply tty_sync_trans; [|apply stderr_write_tty_sync]);
    (apply (tty_sync_frame _ _ []); try reflexivity; symmetry; apply app_nil_r).
Qed.

Lemma handle_async_tty_sync (a : async_event) (w : World) :
  tty_sync cfg w (handle_async a w).
Proof.
  destruct a as [key|]; simpl.
  - apply on_data_tty_sync.
  - destruct (flash_live w);
      [apply flash_callback_tty_sync | apply tty_sync_refl].
Qed.

Lemma handle_asyncs_tty_sync (l : list async_event) (w : World) :
  tty_sync cfg w (handle_asyncs l w).
Proof.
  revert w. induction l as [|a l IH]; intros w; simpl.
  - apply tty_sync_refl.
  - eapply tty_sync_trans; [apply handle_async_tty_sync | apply IH].
Qed.

Lemma on_token_tty_sync (input t : jsstring) (ls : loop_state) (w : World) :
  tty_sync cfg w (snd (on_token cfg input t ls w)).
Proof.
  unfold on_token.
  assert (Q1 : forall b : bool, tty_sync cfg w (if b then stopIndicating w else w)).
  { intros [|]; [apply stopIndicating_tty_sync | apply tty_sync_refl]. }
  destruct (currentToken ls + 1 >=? bufferAhead cfg); simpl; [|apply Q1].
  eapply tty_sync_trans; [apply Q1 | apply writeToken_tty_sync].
Qed.

Lemma receive_tty_sync (input : jsstring) (evs : list stream_event)
    (ls : loop_state) (w : World) :
  tty_sync cfg w (world_of (receive cfg input evs ls w)).
Proof.
  revert ls w. induction evs as [|[t|a] evs IH]; intros ls w; simpl.
  - apply tty_sync_refl.
  - destruct (killed (st w)); [apply tty_sync_refl|].
    pose proof (on_token_tty_sync input t ls w) as Q.
    destruct (on_token cfg input t ls w) as [ls' w']. simpl in Q.
    eapply tty_sync_trans; [exact Q | apply IH].
  - eapply tty_sync_trans; [apply handle_async_tty_sync | apply IH].
Qed.

Lemma paced_tty_sync (buf : list jsstring) (ws : list (list async_event))
    (w : World) :
  tty_sync cfg w (paced cfg buf ws w).
Proof.
  revert ws w. induction buf as [|t buf IH]; intros ws w; simpl.
  - apply tty_sync_refl.
  - destruct (killed (st w)); [apply tty_sync_refl|].
    eapply tty_sync_trans; [apply handle_asyncs_tty_sync|].
    eapply tty_sync_trans; [apply writeToken_tty_sync | apply IH].
Qed.

Lemma stream_and_drain_tty_sync (input : jsstring) (sched : schedule)
    (w : World) :
  tty_sync cfg w (stream_and_drain cfg input sched w).
Proof.
  unfold stream_and_drain.
  pose proof (receive_tty_sync input (stream sched) loop_init w) as Q.
  destruct (receive cfg input (stream sched) loop_init w) as [ls w'|w'];
    simpl in Q; [|exact Q].
  eapply tty_sync_trans; [exact Q | apply paced_tty_sync].
Qed.

Lemma createWriteStream_tty_sync (w : World) :
  tty_sync cfg w (createWriteStream w).
Proof.
  unfold createWriteStream.
  destruct (_ >? 1); [destruct (_ && _)|].
  - apply (tty_sync_frame _ _
             [FileTruncate (Z.of_nat (length (inputFile w)) - 2 + 1);
              OpenWriteStream]);
      try reflexivity.
    simpl. rewrite <- app_assoc. reflexivity.
  - apply log_tty_sync. reflexivity.
  - apply log_tty_sync. reflexivity.
Qed.

Lemma begin_stream_tty_sync (input : jsstring) (w : World) :
  tty_sync cfg w (begin_stream cfg input w).
Proof.
  unfold begin_stream.
  eapply tty_sync_trans; [|apply log_tty_sync; reflexivity].
  eapply tty_sync_trans;
    [apply (tty_sync_frame _ (with_st (set_busy true) w) []);
     try reflexivity; symmetry; apply app_nil_r|].
  destruct (append cfg);
    [apply createWriteStream_tty_sync | apply writeToken_tty_sync].
Qed.

Lemma shutdown_tty_sync (w : World) : tty_sync cfg w (shutdown w).
Proof.
  unfold shutdown, dispose. destruct (busy (st w)).
  - apply log_tty_sync. reflexivity.
  - apply (tty_sync_trans _ (log ModelDispose w));
      [apply log_tty_sync; reflexivity|].
    eapply tty_sync_trans; [apply restoreInput_tty_sync|].
    apply log_tty_sync. reflexivity.
Qed.

Lemma proccessingStopped_tty_sync (w : World) :
  tty_sync cfg w (proccessingStopped cfg w).
Proof.
  unfold proccessingStopped.
  eapply tty_sync_trans; [apply writeToken_tty_sync|].
  eapply tty_sync_trans; [apply stopIndicating_tty_sync|].
  eapply tty_sync_trans; [apply restoreInput_tty_sync|].
  apply shutdown_tty_sync.
Qed.

Lemma processStream_tty_sync (input : jsstring) (sched : schedule) (w : World) :
  tty_sync cfg w (processStream cfg input sched w).
Proof.
  unfold processStream.
  eapply tty_sync_trans; [apply begin_stream_tty_sync|].
  eapply tty_sync_trans; [apply stream_and_drain_tty_sync|].
  apply proccessingStopped_tty_sync.
Qed.

End TtySync.

(** The state in which [proccessingStopped] leaves the terminal and the
    indicator, when [busy] is set and [flashLoop] holds the timer. *)
Lemma proccessingStopped_final (cfg : config) (w : World) :
  busy (st w) = true -> flashLoop (st w) = Some FlashTimer ->
  rl_ttyWrite (proccessingStopped cfg w) = TtyOriginal /\
  cursor_hidden (proccessingStopped cfg w) = false /\
  flash_live (proccessingStopped cfg w) = false /\
  flashOn (st (proccessingStopped cfg w)) = false.
Proof.
  intros B F. unfold proccessingStopped, shutdown.
  autorewrite with world_st. simpl. rewrite B.
  unfold restoreInput, stopIndicating.
  rewrite log_st, writeToken_st, F.
  repeat split.
Qed.

Lemma clear_count_app (a b : list effect) :
  clear_count (a ++ b) = (clear_count a + clear_count b)%nat.
Proof.
  induction a as [|e a IH]; simpl; [reflexivity|].
  destruct e; simpl; rewrite IH; reflexivity.
Qed.

Lemma main_loops_state (cfg : config) (file : list Z) (input : jsstring)
    (sched : schedule) :
  let w2 := stream_and_drain cfg (replace_trailing_newline input) sched
              (begin_stream cfg input
                 (startIndicating (blockInput (initial_world file)))) in
  busy (st w2) = true /\ flashLoop (st w2) = Some FlashTimer.
Proof.
  intros w2. split.
  - destruct (stream_and_drain_quiet cfg (replace_trailing_newline input) sched
                (begin_stream cfg input
                   (startIndicating (blockInput (initial_world file)))))
      as (B & _).
    fold w2 in B. rewrite B. apply begin_stream_busy.
  - destruct (stream_and_drain_tty_sync cfg (replace_trailing_newline input)
                sched
                (begin_stream cfg input
                   (startIndicating (blockInput (initial_world file)))))
      as (F & _).
    fold w2 in F. rewrite F.
    destruct (begin_stream_tty_sync cfg input
                (startIndicating (blockInput (initial_world file))))
      as (F1 & _).
    rewrite F1. reflexivity.
Qed.

Lemma main_flash_live (cfg : config) (file : list Z) (input : jsstring)
    (sched : schedule) :
  flash_live (main cfg file input sched) = false.
Proof.
  destruct (main_loops_state cfg file input sched) as (B & F).
  unfold main, processStream.
  apply (proccessingStopped_final cfg _ B F).
Qed.


(** X8. Once a run has ended the indicator never writes again: interval
    callbacks that are still queued find the timer disarmed and change
    nothing. *)
Theorem indicator_is_silent_after_the_run :
  forall (cfg : config) (file : list Z) (input : jsstring) (sched : schedule)
         (n : nat),
    run_entries (repeat ETick n) (main cfg file input sched) =
    main cfg file input sched.
Proof.
  intros cfg file input sched n.
  pose proof (main_flash_live cfg file input sched) as L.
  induction n as [|n IH]; simpl; [reflexivity|].
  rewrite L. exact IH.
Qed.

(** X9. The record of the terminal line follows the sink: at the end of a
    run in terminal mode [rl.line] is exactly the text written to the sink
    (echo, tokens, final newline), in the two other modes it is still
    empty, and [rl.cursor] is the length of [rl.line]. *)
Theorem terminal_line_mirrors_the_sink :
  forall (cfg : config) (file : list Z) (input : jsstring) (sched : schedule),
    let wf := main cfg file input sched in
    rl_line wf =
      (if negb (append cfg) && isTTY cfg then sink_text (effects wf) else []) /\
    rl_cursor wf = Z.of_nat (length (rl_line wf)).
Proof.
  intros cfg file input sched wf.
  destruct (processStream_tty_sync cfg input sched
              (startIndicating (blockInput (initial_world file))))
    as (_ & C & es & E & L).
  fold (main cfg file input sched) in C, E, L. fold wf in C, E, L.
  split; [|apply C; reflexivity].
  rewrite L, E, sink_text_app. reflexivity.
Qed.

(** ** The indicator outside terminal mode *)

Lemma createWriteStream_clear_count (w : World) :
  clear_count (effects (createWriteStream w)) = clear_count (effects w).
Proof.
  destruct (createWriteStream_silent w) as (_ & _ & es & E & _).
  unfold createWriteStream in *.
  destruct (Z.of_nat (length (inputFile w)) - 2 >? 1);
    [destruct (negb (fst (read2 (inputFile w)
                            (Z.of_nat (length (inputFile w)) - 2)) =? 10)
               && (snd (read2 (inputFile w)
                          (Z.of_nat (length (inputFile w)) - 2)) =? 10))|];
    rewrite !log_effects, ?clear_count_app; simpl; lia.
Qed.

Section NotATerminal.

Variable cfg : config.
Hypothesis not_tty : negb (append cfg) && isTTY cfg = false.

Lemma handle_async_clear_count (a : async_event) (w : World) :
  clear_count (effects (handle_async a w)) = clear_count (effects w).
Proof.
  destruct a as [key|]; simpl.
  - rewrite on_data_effects. reflexivity.
  - destruct (flash_live w); [|reflexivity].
    unfold flash_callback. destruct (flashOn (st w));
      rewrite stderr_write_effects, clear_count_app; simpl; lia.
Qed.

Lemma handle_asyncs_clear_count (l : list async_event) (w : World) :
  clear_count (effects (handle_asyncs l w)) = clear_count (effects w).
Proof.
  revert w. induction l as [|a l IH]; intros w; simpl; [reflexivity|].
  unfold handle_asyncs in IH. rewrite IH. apply handle_async_clear_count.
Qed.

Lemma writeToken_clear_count (t : jsstring) (w : World) :
  clear_count (effects (writeToken cfg t w)) = clear_count (effects w).
Proof. rewrite writeToken_effects, clear_count_app. simpl. lia. Qed.

Lemma on_token_clear_count (input t : jsstring) (ls : loop_state) (w : World) :
  clear_count (effects (snd (on_token cfg input t ls w))) =
  clear_count (effects w).
Proof.
  unfold on_token.
  replace ((currentToken ls + 1 =? bufferAhead cfg)
           && negb (append cfg) && isTTY cfg) with false
    by (rewrite <- andb_assoc, not_tty, andb_false_r; reflexivity).
  destruct (currentToken ls + 1 >=? bufferAhead cfg); simpl; [|reflexivity].
  apply writeToken_clear_count.
Qed.

Lemma receive_clear_count (input : jsstring) (evs : list stream_event)
    (ls : loop_state) (w : World) :
  clear_count (effects (world_of (receive cfg input evs ls w))) =
  clear_count (effects w).
Proof.
  revert ls w. induction evs as [|[t|a] evs IH]; intros ls w; simpl.
  - reflexivity.
  - destruct (killed (st w)); [reflexivity|].
    pose proof (on_token_clear_count input t ls w) as Q.
    destruct (on_token cfg input t ls w) as [ls' w']. simpl in Q.
    rewrite IH. exact Q.
  - rewrite IH. apply handle_async_clear_count.
Qed.

Lemma paced_clear_count (buf : list jsstring) (ws : list (list async_event))
    (w : World) :
  clear_count (effects (paced cfg buf ws w)) = clear_count (effects w).
Proof.
  revert ws w. induction buf as [|t buf IH]; intros ws w; simpl.
  - reflexivity.
  - destruct (killed (st w)); [reflexivity|].
    rewrite IH, writeToken_clear_count. apply handle_asyncs_clear_count.
Qed.

Lemma begin_stream_clear_count (input : jsstring) (w : World) :
  clear_count (effects (begin_stream cfg input w)) = clear_count (effects w).
Proof.
  unfold begin_stream. rewrite log_effects, clear_count_app. simpl.
  rewrite Nat.add_0_r. destruct (append cfg).
  - rewrite createWriteStream_clear_count. reflexivity.
  - rewrite writeToken_clear_count. reflexivity.
Qed.

(** X10. In append mode and in redirected mode the indicator is not
    stopped while tokens are written: between the start of the run and
    the final newline no [clearInterval] is made, whatever the stream
    and the depth; the only one of the run is that of
    [proccessingStopped]. *)
Theorem indicator_runs_until_the_end_outside_terminal_mode :
  forall (input : jsstring) (sched : schedule) (w : World),
    clear_count
      (effects (stream_and_drain cfg (replace_trailing_newline input) sched
                  (begin_stream cfg input w))) = clear_count (effects w) /\
    clear_count (effects (processStream cfg input sched w)) =
      S (clear_count (effects w)).
Proof.
  intros input sched w.
  assert (H : clear_count
                (effects (stream_and_drain cfg (replace_trailing_newline input)
                            sched (begin_stream cfg input w))) =
              clear_count (effects w)).
  { unfold stream_and_drain.
    pose proof (receive_clear_count (replace_trailing_newline input)
                  (stream sched) loop_init (begin_stream cfg input w)) as Q.
    destruct (receive cfg (replace_trailing_newline input) (stream sched)
                loop_init (begin_stream cfg input w)) as [ls w'|w'];
      simpl in Q.
    - rewrite paced_clear_count, Q. apply begin_stream_clear_count.
    - rewrite Q. apply begin_stream_clear_count. }
  split; [exact H|].
  unfold processStream.
  destruct (stream_and_drain_quiet cfg (replace_trailing_newline input) sched
              (begin_stream cfg input w)) as (B & _).
  rewrite begin_stream_busy in B.
  rewrite (proccessingStopped_effects _ _ B), clear_count_app, H. simpl. lia.
Qed.

End NotATerminal.

Lemma indicator_runs_until_the_end_outside_terminal_mode_witness :
  clear_count
    (effects (main (mkConfig false false 0) [] (lit "Go")
                (mkSchedule [Token (lit " on"); Token (lit ".")] []))) = 1%nat.
Proof.
  exact (proj2 (indicator_runs_until_the_end_outside_terminal_mode
                  (mkConfig false false 0) eq_refl (lit "Go")
                  (mkSchedule [Token (lit " on"); Token (lit ".")] [])
                  (startIndicating (blockInput (initial_world []))))).
Defined.

(** ** The command line *)

Section FindIndex.

Context {A : Type}.
Variable f : A -> bool.

Lemma findIndex_range (l : list A) :
  -1 <= CommandLine.findIndex f l < Z.of_nat (length l).
Proof.
  induction l as [|a l IH]; simpl; [lia|].
  destruct (f a); [lia|].
  destruct (CommandLine.findIndex f l <? 0) eqn:E; lia.
Qed.

(** [findIndex] stops at the first match. *)
Lemma findIndex_first (pre post : list A) (a : A) :
  forallb (fun x => negb (f x)) pre = true -> f a = true ->
  CommandLine.findIndex f (pre ++ a :: post) = Z.of_nat (length pre).
Proof.
  intros Hpre Ha. induction pre as [|x pre IH]; simpl in *.
  - rewrite Ha. reflexivity.
  - apply andb_true_iff in Hpre. destruct Hpre as (Hx & Hpre).
    apply negb_true_iff in Hx. rewrite Hx, (IH Hpre).
    destruct (Z.of_nat (length pre) <? 0) eqn:E; lia.
Qed.

Lemma existsb_middle (pre post : list A) (a : A) :
  f a = true -> existsb f (pre ++ a :: post) = true.
Proof.
  intros Ha. rewrite existsb_app. simpl. rewrite Ha.
  apply orb_true_r.
Qed.

End FindIndex.

Lemma js_index_after {A : Type} (pre post : list A) (a b : A) :
  js_index (pre ++ a :: b :: post) (Z.of_nat (length pre) + 1) = Some b.
Proof.
  unfold js_index.
  destruct (Z.of_nat (length pre) + 1 <? 0) eqn:E;
    [apply Z.ltb_lt in E; lia|].
  replace (Z.to_nat (Z.of_nat (length pre) + 1)) with (length pre + 1)%nat
    by lia.
  rewrite nth_error_app2 by lia.
  replace (length pre + 1 - length pre)%nat with 1%nat by lia.
  reflexivity.
Qed.

Lemma js_index_past_end {A : Type} (pre : list A) (a : A) :
  js_index (pre ++ [a]) (Z.of_nat (length pre) + 1) = None.
Proof.
  unfold js_index.
  destruct (Z.of_nat (length pre) + 1 <? 0); [reflexivity|].
  apply nth_error_None. rewrite length_app. simpl. lia.
Qed.

Lemma includes_In (l : list string) (arg : string) :
  CommandLine.includes l arg = true <-> In arg l.
Proof.
  unfold CommandLine.includes. rewrite existsb_exists. split.
  - intros (x & Hx & E). apply String.eqb_eq in E. subst. exact Hx.
  - intros H. exists arg. split; [exact H | apply String.eqb_refl].
Qed.

Lemma falsy_nonempty (s : string) :
  s <> EmptyString -> CommandLine.falsy (Some s) = false.
Proof.
  intros H. simpl. apply String.eqb_neq. exact H.
Qed.

(** X11. The append flag decides alone: when [-a] or [--append] occurs,
    the run is in append mode on the file named by the argument that
    follows the first such flag, whatever other flags ([-f], [-p]) and
    arguments stand before or after. *)
Theorem append_flag_takes_precedence :
  forall (pre post : list string) (flag path : string),
    In flag CommandLine.flags_append ->
    forallb (fun x => negb (CommandLine.includes CommandLine.flags_append x))
            pre = true ->
    path <> EmptyString ->
    CommandLine.startup_of (pre ++ flag :: path :: post) =
    CommandLine.FromFile path true.
Proof.
  intros pre post flag path Hf Hpre Hp.
  apply includes_In in Hf.
  unfold CommandLine.startup_of, CommandLine.getInputIndex.
  assert (Ha : CommandLine.append (pre ++ flag :: path :: post) = true)
    by (apply existsb_middle; exact Hf).
  rewrite Ha, orb_true_r.
  rewrite (findIndex_first _ pre (path :: post) flag Hpre Hf).
  rewrite js_index_after, (falsy_nonempty _ Hp). reflexivity.
Qed.

Lemma append_flag_takes_precedence_witness :
  CommandLine.startup_of
    (["-f"%string; "draft.txt"%string] ++
     "-a"%string :: "story.txt"%string :: ["-p"%string; "hello"%string]) =
  CommandLine.FromFile "story.txt"%string true.
Proof.
  apply (append_flag_takes_precedence ["-f"%string; "draft.txt"%string]
           ["-p"%string; "hello"%string] "-a"%string "story.txt"%string).
  - left. reflexivity.
  - reflexivity.
  - discriminate.
Defined.

(** X12. Without an append flag, a file flag decides: the input is read
    from the file named by the argument that follows the first [-f] or
    [--file], and a prompt given with [-p] is ignored. *)
Theorem file_flag_selects_the_next_argument :
  forall (pre post : list string) (flag path : string),
    In flag CommandLine.flags_file ->
    CommandLine.append (pre ++ flag :: path :: post) = false ->
    forallb (fun x => negb (CommandLine.includes CommandLine.flags_file x))
            pre = true ->
    path <> EmptyString ->
    CommandLine.startup_of (pre ++ flag :: path :: post) =
    CommandLine.FromFile path false.
Proof.
  intros pre post flag path Hf Ha Hpre Hp.
  apply includes_In in Hf.
  unfold CommandLine.startup_of, CommandLine.getInputIndex.
  assert (Hu : CommandLine.useFile (pre ++ flag :: path :: post) = true)
    by (apply existsb_middle; exact Hf).
  rewrite Ha, Hu. simpl orb.
  rewrite (findIndex_first _ pre (path :: post) flag Hpre Hf).
  rewrite js_index_after, (falsy_nonempty _ Hp). reflexivity.
Qed.

Lemma file_flag_selects_the_next_argument_witness :
  CommandLine.startup_of
    (["-p"%string; "hello"%string] ++ "--file"%string :: "input.txt"%string :: []) =
  CommandLine.FromFile "input.txt"%string false.
Proof.
  apply (file_flag_selects_the_next_argument ["-p"%string; "hello"%string] []
           "--file"%string "input.txt"%string).
  - right. left. reflexivity.
  - reflexivity.
  - reflexivity.
  - discriminate.
Defined.

(** X13. With neither a file flag nor an append flag, the prompt is the
    argument that follows the first [-p] or [--prompt], taken as it is
    (it may be empty, and it may look like a flag); when the flag is the
    last argument the prompt is [undefined]. *)
Theorem prompt_flag_selects_the_next_argument :
  forall (pre post : list string) (flag : string),
    In flag CommandLine.flags_prompt ->
    CommandLine.useFile (pre ++ flag :: post) = false ->
    CommandLine.append (pre ++ flag :: post) = false ->
    forallb (fun x => negb (CommandLine.includes CommandLine.flags_prompt x))
            pre = true ->
    CommandLine.startup_of (pre ++ flag :: post) =
    CommandLine.FromPrompt (hd_error post).
Proof.
  intros pre post flag Hf Hu Ha Hpre.
  apply includes_In in Hf.
  unfold CommandLine.startup_of, CommandLine.getInputIndex.
  assert (Hp : CommandLine.prompt (pre ++ flag :: post) = true)
    by (apply existsb_middle; exact Hf).
  rewrite Ha, Hu, Hp. simpl orb. cbv iota.
  rewrite (findIndex_first _ pre post flag Hpre Hf).
  destruct post as [|text post]; simpl hd_error.
  - rewrite js_index_past_end. reflexivity.
  - rewrite js_index_after. reflexivity.
Qed.

Lemma prompt_flag_selects_the_next_argument_witness :
  CommandLine.startup_of ([] ++ "-p"%string :: ["This is a test"%string]) =
    CommandLine.FromPrompt (Some "This is a test"%string) /\
  CommandLine.startup_of (["extra"%string] ++ "--prompt"%string :: []) =
    CommandLine.FromPrompt None.
Proof.
  split.
  - apply (prompt_flag_selects_the_next_argument [] ["This is a test"%string]
             "-p"%string); [left|..]; reflexivity.
  - apply (prompt_flag_selects_the_next_argument ["extra"%string] []
             "--prompt"%string); [right; left|..]; reflexivity.
Defined.

(** X14. A deciding file or append flag that stands last, with no path
    after it, makes the script leave with exit code 1. *)
Theorem missing_path_exits :
  forall (pre : list string) (flag : string),
    (In flag CommandLine.flags_append /\
     forallb (fun x => negb (CommandLine.includes CommandLine.flags_append x))
             pre = true) \/
    (In flag CommandLine.flags_file /\
     CommandLine.append (pre ++ [flag]) = false /\
     forallb (fun x => negb (CommandLine.includes CommandLine.flags_file x))
             pre = true) ->
    CommandLine.startup_of (pre ++ [flag]) = CommandLine.ExitFailure.
Proof.
  intros pre flag [(Hf & Hpre)|(Hf & Ha & Hpre)]; apply includes_In in Hf;
    unfold CommandLine.startup_of, CommandLine.getInputIndex.
  - assert (Ha : CommandLine.append (pre ++ [flag]) = true)
      by (apply existsb_middle; exact Hf).
    rewrite Ha, orb_true_r.
    rewrite (findIndex_first _ pre [] flag Hpre Hf), js_index_past_end.
    reflexivity.
  - assert (Hu : CommandLine.useFile (pre ++ [flag]) = true)
      by (apply existsb_middle; exact Hf).
    rewrite Ha, Hu. simpl orb.
    rewrite (findIndex_first _ pre [] flag Hpre Hf), js_index_past_end.
    reflexivity.
Qed.

Lemma missing_path_exits_witness :
  CommandLine.startup_of (["-p"%string; "hello"%string] ++ ["-f"%string]) =
  CommandLine.ExitFailure.
Proof.
  apply (missing_path_exits ["-p"%string; "hello"%string] "-f"%string).
  right. split; [left; reflexivity | split; reflexivity].
Defined.

(** X15. Whatever the arguments, a file is only ever taken from the
    command line: when the script goes on with an input path, the path is
    one of the arguments, it is not empty, a file or append flag was
    given, and the mode is append exactly when an append flag was
    given. *)
Theorem input_path_comes_from_the_arguments :
  forall (args : list string) (path : string) (mode : bool),
    CommandLine.startup_of args = CommandLine.FromFile path mode ->
    In path args /\ path <> EmptyString /\
    mode = CommandLine.append args /\
    CommandLine.useFile args || CommandLine.append args = true.
Proof.
  intros args path mode. unfold CommandLine.startup_of.
  destruct (CommandLine.useFile args || CommandLine.append args) eqn:E;
    [|discriminate].
  unfold js_index.
  destruct (CommandLine.getInputIndex args <? 0); [discriminate|].
  destruct (nth_error args (Z.to_nat (CommandLine.getInputIndex args)))
    as [p|] eqn:N; [|discriminate].
  destruct (CommandLine.falsy (Some p)) eqn:F; [discriminate|].
  intros [= <- <-].
  repeat split.
  - eapply nth_error_In. exact N.
  - intros ->. discriminate.
Qed.

Lemma input_path_comes_from_the_arguments_witness :
  In "notes.md"%string ["--append"%string; "notes.md"%string] /\
  "notes.md"%string <> EmptyString /\
  true = CommandLine.append ["--append"%string; "notes.md"%string] /\
  CommandLine.useFile ["--append"%string; "notes.md"%string]
    || CommandLine.append ["--append"%string; "notes.md"%string] = true.
Proof.
  apply (input_path_comes_from_the_arguments
           ["--append"%string; "notes.md"%string] "notes.md"%string true).
  reflexivity.
Defined.

(** ** More on the two newline trims *)

Lemma createWriteStream_single_newline_witness :
  (2 <= length [72; 105])%nat /\ 33 <> 10 /\
  inputFile (createWriteStream (initial_world [72; 105; 33; 10])) =
  [72; 105; 33].
Proof.
  assert (H1 : (2 <= length [72; 105])%nat) by (simpl; lia).
  assert (H2 : 33 <> 10) by discriminate.
  split; [exact H1 | split; [exact H2|]].
  exact (createWriteStream_single_newline [72; 105] 33
           (initial_world [72; 105; 33; 10]) H1 H2 eq_refl).
Defined.

Lemma createWriteStream_double_newline_witness :
  inputFile (createWriteStream (initial_world [72; 105; 10; 10])) =
  [72; 105; 10; 10].
Proof.
  exact (createWriteStream_double_newline [72; 105]
           (initial_world [72; 105; 10; 10]) eq_refl).
Defined.

(** Cutting the last byte of a file whose last byte is a line feed. *)
Lemma truncate_last_newline (file : list Z) :
  file <> [] ->
  nth (Z.to_nat (Z.of_nat (length file) - 2 + 1)) file 0 = 10 ->
  file = truncate file (Z.of_nat (length file) - 2 + 1) ++ [10].
Proof.
  intros Hne Hlast.
  destruct (exists_last Hne) as (pre & x & ->).
  rewrite length_app in *. simpl length in *.
  replace (Z.to_nat (Z.of_nat (length pre + 1) - 2 + 1))
    with (length pre + 0)%nat in * by lia.
  rewrite nth_app_exact in Hlast. simpl in Hlast. subst x.
  unfold truncate.
  replace (Z.to_nat (Z.of_nat (length pre + 1) - 2 + 1))
    with (length pre) by lia.
  rewrite length_app. simpl length.
  replace (length pre - (length pre + 1))%nat with 0%nat by lia.
  simpl repeat. rewrite app_nil_r, firstn_app_exact. reflexivity.
Qed.

(** X18. Whatever the file holds, the normalisation of append mode
    either leaves it as it is or removes its last byte, and the byte it
    removes is a line feed: it never cuts text and never pads. *)
Theorem createWriteStream_removes_at_most_one_newline :
  forall w : World,
    inputFile (createWriteStream w) = inputFile w \/
    inputFile w = inputFile (createWriteStream w) ++ [10].
Proof.
  intros w. unfold createWriteStream.
  destruct (Z.of_nat (length (inputFile w)) - 2 >? 1) eqn:G;
    [|left; reflexivity].
  apply Z.gtb_lt in G.
  destruct (negb (fst (read2 (inputFile w)
                         (Z.of_nat (length (inputFile w)) - 2)) =? 10)
            && (snd (read2 (inputFile w)
                       (Z.of_nat (length (inputFile w)) - 2)) =? 10)) eqn:C;
    [|left; reflexivity].
  right. simpl inputFile.
  apply andb_true_iff in C. destruct C as (_ & C). apply Z.eqb_eq in C.
  apply truncate_last_newline; [|exact C].
  intros E. rewrite E in G. simpl in G. lia.
Qed.

(** X19. The initial trim of [processStream] changes nothing else: an
    input that does not end with a character other than a line feed
    followed by a line feed (an empty input, an input without a final
    newline, one that ends with two newlines, a lone newline) is echoed
    and given to the model as it is. *)
Theorem initial_trim_keeps_other_inputs :
  forall s : jsstring,
    (forall (pre : jsstring) (c : Z), c <> LF -> s <> pre ++ [c; LF]) ->
    replace_trailing_newline s = s.
Proof.
  induction s as [|c s IH]; intros H; simpl; [reflexivity|].
  destruct (negb (c =? LF) && str_eqb s nl) eqn:E.
  - apply andb_true_iff in E. destruct E as (Ec & Es).
    apply negb_true_iff, Z.eqb_neq in Ec. apply str_eqb_eq in Es. subst s.
    exfalso. exact (H [] c Ec eq_refl).
  - f_equal. apply IH. intros pre c' Hc' ->.
    exact (H (c :: pre) c' Hc' eq_refl).
Qed.

Lemma initial_trim_keeps_other_inputs_witness :
  replace_trailing_newline (lit "Title:" ++ [LF; LF]) = lit "Title:" ++ [LF; LF].
Proof.
  apply (initial_trim_keeps_other_inputs (lit "Title:" ++ [LF; LF])).
  intros pre c Hc E.
  apply (f_equal (@rev Z)) in E. rewrite !rev_app_distr in E.
  simpl in E. injection E as E _. apply Hc. symmetry. exact E.
Defined.

(** ** Witnesses for two lemmas above *)

Lemma boundary_free_run_witness :
  sink_writes (effects (main (fragment_cfg false true) [] (lit "So")
                          fragment_schedule)) =
  [lit "So"; lit " and"; lit " then"; lit " it"; lit " kept"; nl].
Proof.
  apply (boundary_free_run (fragment_cfg false true) (lit "So")
           fragment_schedule
           (startIndicating (blockInput (initial_world []))));
    [simpl; lia | reflexivity ..].
Defined.

Lemma live_path_stops_indicator_witness :
  exists es,
    effects (world_of (receive (fragment_cfg false true) [] fragment_tokens
                         loop_init (initial_world []))) =
    effects (initial_world []) ++ es /\
    stopped_before_first_write es = true.
Proof.
  apply (live_path_stops_indicator (fragment_cfg false true) []
           fragment_tokens loop_init (initial_world []));
    try reflexivity.
  simpl. lia.
Defined.

(** ** The cancellation flag *)

Lemma shutdown_killed (w : World) : killed (st (shutdown w)) = killed (st w).
Proof.
  unfold shutdown, dispose. destruct (busy (st w));
    autorewrite with world_st; reflexivity.
Qed.

Lemma proccessingStopped_killed (cfg : config) (w : World) :
  killed (st (proccessingStopped cfg w)) = killed (st w).
Proof.
  unfold proccessingStopped. rewrite shutdown_killed.
  autorewrite with world_st. reflexivity.
Qed.

Lemma processStream_killed_mono (cfg : config) (input : jsstring)
    (sched : schedule) (w : World) :
  killed (st w) = true -> killed (st (processStream cfg input sched w)) = true.
Proof.
  intros K. unfold processStream. rewrite proccessingStopped_killed.
  destruct (stream_and_drain_quiet cfg (replace_trailing_newline input) sched
              (begin_stream cfg input w)) as (_ & Km & _).
  apply Km. rewrite begin_stream_killed. exact K.
Qed.

Lemma run_entry_killed_mono (e : entry) (w : World) :
  killed (st w) = true -> killed (st (run_entry e w)) = true.
Proof.
  intros K. destruct e; simpl run_entry.
  - apply on_data_killed_mono. exact K.
  - destruct (handle_async_quiet Tick w) as (_ & Km & _). auto.
  - unfold on_uncaughtException. rewrite log_st.
    destruct (busy (st w)); [rewrite shutdown_killed|];
      rewrite log_st; exact K.
  - rewrite shutdown_killed. exact K.
  - unfold handleProcessingError. rewrite shutdown_killed, log_st. exact K.
  - rewrite proccessingStopped_killed. exact K.
  - rewrite writeToken_st. exact K.
  - rewrite stopIndicating_st. exact K.
  - destruct (startIndicating_silent w) as (_ & Ks & _). congruence.
  - destruct (blockInput_silent w) as (_ & Ks & _). congruence.
  - rewrite restoreInput_st. exact K.
  - apply processStream_killed_mono. exact K.
Qed.

(** X22. The cancellation flag is one-way: once [state.killed] is set,
    nothing that runs afterwards (input events, timer ticks, the end of
    the run, shutdown, error handlers, even another run) clears it, so
    [onResponseToken] answers [false] to the token source from then
    on. *)
Theorem killed_is_never_cleared :
  forall (es : list entry) (w : World),
    killed (st w) = true ->
    killed (st (run_entries es w)) = true /\
    onResponseToken (run_entries es w) = false.
Proof.
  intros es w K.
  assert (H : killed (st (run_entries es w)) = true).
  { revert w K. induction es as [|e es IH]; intros w K; simpl; [exact K|].
    apply IH. apply run_entry_killed_mono. exact K. }
  split; [exact H|]. unfold onResponseToken. rewrite H. reflexivity.
Qed.

Lemma killed_is_never_cleared_witness :
  onResponseToken
    (run_entries [ETick; EData (lit "x"); EStopped (story_cfg false true)]
       (on_data CTRL_C (with_st (set_busy true) (initial_world [])))) = false.
Proof.
  apply (killed_is_never_cleared
           [ETick; EData (lit "x"); EStopped (story_cfg false true)]
           (on_data CTRL_C (with_st (set_busy true) (initial_world [])))).
  reflexivity.
Defined.
